(** * Rolling statistics window of a circuit breaker ([lib/status.js])

    A shallow embedding of the [Status] class: the window is a JavaScript
    array of bucket objects, both living in a store of objects addressed by
    reference, so that the sharing between the internal window, the rotation
    closure and the copy handed out by the [window] accessor is explicit.

    Numbers.  Latencies, counters and the two numeric options are
    integers ([Z]; exact in a double below [2^53]).  The quantiles of
    [PERCENTILES] and every value computed by a division or a product
    with one of them are binary64 numbers, taken from [SpecFloat] with
    precision 53 and maximal exponent 1024.

    Inputs.  [increment] is called with one of the nine counter names
    and an optional latency; [rollingPercentilesEnabled] is a boolean. *)

From Stdlib Require Import ZArith Lia Floats.SpecFloat.
From stdpp Require Import base option list sorting countable gmap.

Local Open Scope Z_scope.

(** ** JavaScript numbers *)

Module Number.

Definition prec : Z := 53.
Definition emax : Z := 1024.

Definition number : Type := spec_float.

(** The double nearest to an integer (exact below [2^53]). *)
Definition of_Z (z : Z) : number := binary_normalize prec emax z 0 false.

Definition mul : number → number → number := SFmul prec emax.
Definition div : number → number → number := SFdiv prec emax.
Definition add : number → number → number := SFadd prec emax.

(** A decimal literal [n/d], such as [0.995 = 995/1000]: the literal
    denotes the double nearest to the rational, which is what the
    correctly rounded division of the two (exact) integers returns. *)
Definition lit (n d : Z) : number := div (of_Z n) (of_Z d).

(** [x === 0] on numbers: true of both zeros, false of NaN. *)
Definition is_zero (x : number) : bool := SFeqb x (S754_zero false).

(** [Math.ceil], as an integer; [None] stands for NaN and the
    infinities, which [Math.ceil] returns unchanged. *)
Definition ceil (x : number) : option Z :=
  match x with
  | S754_zero _ => Some 0
  | S754_finite s m e =>
      let z := cond_Zopp s (Z.pos m) in
      Some (if 0 <=? e then z * 2 ^ e else - ((- z) / 2 ^ (- e)))
  | S754_infinity _ | S754_nan => None
  end.

(** [Math.floor]; zeros, infinities and NaN are returned unchanged. *)
Definition floor (x : number) : number :=
  match x with
  | S754_finite s m e =>
      let z := cond_Zopp s (Z.pos m) in
      if 0 <=? e then x else binary_normalize prec emax (z / 2 ^ (- e)) 0 s
  | _ => x
  end.

Definition is_finite (x : number) : bool :=
  match x with
  | S754_zero _ | S754_finite _ _ _ => true
  | S754_infinity _ | S754_nan => false
  end.

#[global] Instance number_eq_dec : EqDecision number.
Proof. solve_decision. Defined.

Definition to_sum (x : number) : bool + bool + unit + bool * positive * Z :=
  match x with
  | S754_zero s => inl (inl (inl s))
  | S754_infinity s => inl (inl (inr s))
  | S754_nan => inl (inr tt)
  | S754_finite s m e => inr (s, m, e)
  end.

Definition of_sum (x : bool + bool + unit + bool * positive * Z) : number :=
  match x with
  | inl (inl (inl s)) => S754_zero s
  | inl (inl (inr s)) => S754_infinity s
  | inl (inr _) => S754_nan
  | inr (s, m, e) => S754_finite s m e
  end.

#[global] Instance number_countable : Countable number.
Proof. apply (inj_countable' to_sum of_sum). by intros []. Defined.

End Number.

Export Number.

(** ** The percentile of a sorted array *)

(** [v || 0] where [v] is a number or [undefined] ([None]): the falsy
    number [0] and [undefined] both give [0]. *)
Definition or_zero (v : option Z) : Z :=
  match v with
  | Some x => if x =? 0 then 0 else x
  | None => 0
  end.

(** [arr[i]] for an integer [i]: [undefined] outside the array. *)
Definition element (arr : list Z) (i : Z) : option Z :=
  if i <? 0 then None else arr !! Z.to_nat i.

(** [arr[idx - 1]] where [idx] is the result of [Math.ceil]; a NaN or
    infinite [idx] names no element. *)
Definition element_before (arr : list Z) (idx : option Z) : option Z :=
  match idx with
  | Some k => element arr (k - 1)
  | None => None
  end.

Definition calculatePercentile (percentile : number) (arr : list Z) : Z :=
  if is_zero percentile then or_zero (element arr 0)
  else
    let idx := ceil (mul percentile (of_Z (Z.of_nat (length arr)))) in
    or_zero (element_before arr idx).

(** ** Buckets *)

(** The names of the nine counters, the values [increment] is called
    with. *)
Module Property.
Inductive t : Set :=
| failures | fallbacks | successes | rejects | fires | timeouts
| cacheHits | cacheMisses | semaphoreRejections.

#[global] Instance eq_dec : EqDecision t.
Proof. solve_decision. Defined.

Definition all : list t :=
  [failures; fallbacks; successes; rejects; fires; timeouts;
   cacheHits; cacheMisses; semaphoreRejections].
End Property.

(** A bucket object.  [isCircuitBreakerOpen] is [None] as long as the
    object has no such property (reading it gives [undefined]). *)
Record Bucket : Type := mkBucket {
  failures : Z;
  fallbacks : Z;
  successes : Z;
  rejects : Z;
  fires : Z;
  timeouts : Z;
  cacheHits : Z;
  cacheMisses : Z;
  semaphoreRejections : Z;
  percentiles : gmap number Z;
  latencyTimes : list Z;
  isCircuitBreakerOpen : option bool
}.

(** [b[property]] *)
Definition get (property : Property.t) (b : Bucket) : Z :=
  match property with
  | Property.failures => failures b
  | Property.fallbacks => fallbacks b
  | Property.successes => successes b
  | Property.rejects => rejects b
  | Property.fires => fires b
  | Property.timeouts => timeouts b
  | Property.cacheHits => cacheHits b
  | Property.cacheMisses => cacheMisses b
  | Property.semaphoreRejections => semaphoreRejections b
  end.

(** [b[property] = v] *)
Definition set (property : Property.t) (v : Z) (b : Bucket) : Bucket :=
  let 'mkBucket c1 c2 c3 c4 c5 c6 c7 c8 c9 ps ts o := b in
  match property with
  | Property.failures => mkBucket v c2 c3 c4 c5 c6 c7 c8 c9 ps ts o
  | Property.fallbacks => mkBucket c1 v c3 c4 c5 c6 c7 c8 c9 ps ts o
  | Property.successes => mkBucket c1 c2 v c4 c5 c6 c7 c8 c9 ps ts o
  | Property.rejects => mkBucket c1 c2 c3 v c5 c6 c7 c8 c9 ps ts o
  | Property.fires => mkBucket c1 c2 c3 c4 v c6 c7 c8 c9 ps ts o
  | Property.timeouts => mkBucket c1 c2 c3 c4 c5 v c7 c8 c9 ps ts o
  | Property.cacheHits => mkBucket c1 c2 c3 c4 c5 c6 v c8 c9 ps ts o
  | Property.cacheMisses => mkBucket c1 c2 c3 c4 c5 c6 c7 v c9 ps ts o
  | Property.semaphoreRejections => mkBucket c1 c2 c3 c4 c5 c6 c7 c8 v ps ts o
  end.

Definition set_latencyTimes (ts : list Z) (b : Bucket) : Bucket :=
  let 'mkBucket c1 c2 c3 c4 c5 c6 c7 c8 c9 ps _ o := b in
  mkBucket c1 c2 c3 c4 c5 c6 c7 c8 c9 ps ts o.

Definition set_percentiles (ps : gmap number Z) (b : Bucket) : Bucket :=
  let 'mkBucket c1 c2 c3 c4 c5 c6 c7 c8 c9 _ ts o := b in
  mkBucket c1 c2 c3 c4 c5 c6 c7 c8 c9 ps ts o.

Definition set_isCircuitBreakerOpen (o : option bool) (b : Bucket) : Bucket :=
  let 'mkBucket c1 c2 c3 c4 c5 c6 c7 c8 c9 ps ts _ := b in
  mkBucket c1 c2 c3 c4 c5 c6 c7 c8 c9 ps ts o.

(** The object literal of [bucket]: nine zero counters, an empty
    [percentiles] object and an empty [latencyTimes] array.  The literal
    has no [isCircuitBreakerOpen] property. *)
Definition empty_bucket : Bucket :=
  mkBucket 0 0 0 0 0 0 0 0 0 ∅ [] None.

(** ** The store of objects *)

(** A reference is the index of the object in its store; objects are
    never freed, and an allocation takes the next index. *)
Abbreviation ref := nat (only parsing).

(** An array slot holds a reference to a bucket, or [undefined]
    ([None]), as the holes of [new Array(n)] do. *)
Abbreviation slot := (option ref) (only parsing).

Record Heap : Type := mkHeap {
  arrays : list (list slot);
  buckets : list Bucket
}.

Inductive exn : Set :=
| RangeError   (* invalid array length *)
| TypeError    (* property access on [undefined] *)
| Dangling.    (* a reference to no object: no run of the program gets here *)

Inductive result (A : Type) : Type :=
| Ok (a : A)
| Throw (e : exn).
Arguments Ok {A} a.
Arguments Throw {A} e.

(** Computations on the store that may throw. *)
Definition M (A : Type) : Type := Heap → result (A * Heap).

Definition ret {A} (a : A) : M A := λ h, Ok (a, h).
Definition throw {A} (e : exn) : M A := λ _, Throw e.
Definition bind {A B} (c : M A) (k : A → M B) : M B :=
  λ h, match c h with
       | Ok (a, h') => k a h'
       | Throw e => Throw e
       end.

Notation "'let!' x ':=' c 'in' k" := (bind c (λ x, k))
  (at level 10, x name, c at level 100, k at level 200,
   format "'[v' 'let!'  x  ':='  c  'in' '/' k ']'").

Definition read_array (a : ref) : M (list slot) :=
  λ h, match arrays h !! a with
       | Some l => Ok (l, h)
       | None => Throw Dangling
       end.

Definition write_array (a : ref) (l : list slot) : M unit :=
  λ h, match arrays h !! a with
       | Some _ => Ok (tt, mkHeap (<[a := l]> (arrays h)) (buckets h))
       | None => Throw Dangling
       end.

Definition alloc_array (l : list slot) : M ref :=
  λ h, Ok (length (arrays h), mkHeap (arrays h ++ [l]) (buckets h)).

Definition read_bucket (r : ref) : M Bucket :=
  λ h, match buckets h !! r with
       | Some b => Ok (b, h)
       | None => Throw Dangling
       end.

Definition modify_bucket (r : ref) (f : Bucket → Bucket) : M unit :=
  λ h, match buckets h !! r with
       | Some b => Ok (tt, mkHeap (arrays h) (<[r := f b]> (buckets h)))
       | None => Throw Dangling
       end.

(** [bucket()]: a new object, distinct from every existing one. *)
Definition bucket : M ref :=
  λ h, Ok (length (buckets h), mkHeap (arrays h) (buckets h ++ [empty_bucket])).

(** *** Array operations *)

(** [arr[i] = v]: in range the slot is replaced; past the end the array
    grows, the slots in between being holes. *)
Definition assign (l : list slot) (i : nat) (v : slot) : list slot :=
  if decide (i < length l)%nat then <[i := v]> l
  else l ++ replicate (i - length l) None ++ [v].

(** [arr.pop()]: drops the last slot; an empty array stays empty. *)
Definition pop (l : list slot) : list slot := take (length l - 1) l.

(** [arr.unshift(v)] *)
Definition unshift (v : slot) (l : list slot) : list slot := v :: l.

(** [arr.slice()] builds a new array object with the same slots. *)
Definition slice (a : ref) : M ref :=
  let! l := read_array a in
  alloc_array l.

(** [new Array(n)] for a number [n]: [n] holes, or a [RangeError] unless
    [n] is an integer in [0, 2^32 - 1]. *)
Definition new_Array (n : Z) : M ref :=
  if (n <? 0) || (2 ^ 32 <=? n) then throw RangeError
  else alloc_array (replicate (Z.to_nat n) None).

(** ** The Status object *)

Module Options.
Record t : Set := make {
  rollingCountBuckets : Z;
  rollingCountTimeout : Z;
  rollingPercentilesEnabled : bool
}.
End Options.

(** The fields of a [Status]; [bucketInterval] is the period both
    timers are registered with. *)
Record Status : Type := mkStatus {
  WINDOW : ref;
  BUCKETS : Z;
  TIMEOUT : Z;
  PERCENTILES : list number;
  rollingPercentilesEnabled : bool;
  bucketInterval : number
}.

(** [[0.0, 0.25, 0.5, 0.75, 0.9, 0.95, 0.99, 0.995, 1]] *)
Definition percentile_table : list number :=
  [of_Z 0; lit 25 100; lit 5 10; lit 75 100; lit 9 10; lit 95 100;
   lit 99 100; lit 995 1000; of_Z 1].

(** [for (let i = 0; i < this[BUCKETS]; i++) this[WINDOW][i] = bucket()],
    with [count] iterations left. *)
Fixpoint prime (window : ref) (i count : nat) : M unit :=
  match count with
  | O => ret tt
  | S count' =>
      let! b := bucket in
      let! l := read_array window in
      let! _ := write_array window (assign l i (Some b)) in
      prime window (S i) count'
  end.

Definition constructor (options : Options.t) : M Status :=
  let n := Options.rollingCountBuckets options in
  let t := Options.rollingCountTimeout options in
  let! window := new_Array n in
  let! _ := prime window 0 (Z.to_nat n) in
  ret {| WINDOW := window;
         BUCKETS := n;
         TIMEOUT := t;
         PERCENTILES := percentile_table;
         rollingPercentilesEnabled := Options.rollingPercentilesEnabled options;
         bucketInterval := floor (div (of_Z t) (of_Z n)) |}.

(** The rotation closure [nextBucket(window)]. *)
Definition nextBucket (window : ref) : M unit :=
  let! l := read_array window in
  let! _ := write_array window (pop l) in
  let! b := bucket in
  let! l := read_array window in
  write_array window (unshift (Some b) l).

(** *** Aggregation *)

(** One round of the reducer for a defined [val].  The keys of [acc]
    other than [latencyTimes] and [percentiles] are the nine counters,
    in the order of the literal: each grows by [val[key] || 0].  The
    latencies of [val] are pushed when percentiles are enabled. *)
Definition accumulate (enabled : bool) (acc val : Bucket) : Bucket :=
  let acc :=
    foldl (λ acc key, set key (get key acc + or_zero (Some (get key val))) acc)
          acc Property.all in
  if enabled then set_latencyTimes (latencyTimes acc ++ latencyTimes val) acc
  else acc.

(** [this[WINDOW].reduce(..., acc)]; an [undefined] slot is skipped. *)
Fixpoint reduce (enabled : bool) (w : list slot) (acc : Bucket) : M Bucket :=
  match w with
  | [] => ret acc
  | None :: w' => reduce enabled w' acc
  | Some r :: w' =>
      let! val := read_bucket r in
      reduce enabled w' (accumulate enabled acc val)
  end.

(** [arr.sort((a, b) => a - b)] *)
Definition sort (l : list Z) : list Z := merge_sort Z.le l.

(** [arr.reduce((a, b) => a + b, 0) / arr.length] *)
Definition mean (l : list Z) : number :=
  div (foldl (λ a b, add a (of_Z b)) (of_Z 0) l) (of_Z (Z.of_nat (length l))).

(** The value of the [stats] getter: the accumulator object with its
    added [latencyMean] property.  The accumulator is a new [bucket()]
    that no array refers to, so it is kept out of the store. *)
Record Stats : Type := mkStats {
  totals : Bucket;
  latencyMean : number
}.

(** The part of the getter after the reduction: sorting, mean and
    percentile table, or the [-1] marks. *)
Definition summarise (this : Status) (totals : Bucket) : Stats :=
  if rollingPercentilesEnabled this then
    let times := sort (latencyTimes totals) in
    let totals := set_latencyTimes times totals in
    let m := if decide (length times = 0%nat) then of_Z 0 else mean times in
    let ps := foldl (λ ps p, <[p := calculatePercentile p times]> ps)
                    (percentiles totals) (PERCENTILES this) in
    {| totals := set_percentiles ps totals; latencyMean := m |}
  else
    let ps := foldl (λ ps p, <[p := -1]> ps)
                    (percentiles totals) (PERCENTILES this) in
    {| totals := set_percentiles ps totals; latencyMean := of_Z (-1) |}.

Definition stats (this : Status) : M Stats :=
  let! w := read_array (WINDOW this) in
  let! totals := reduce (rollingPercentilesEnabled this) w empty_bucket in
  ret (summarise this totals).

(** *** Accessor and mutation methods *)

(** The [window] getter. *)
Definition window (this : Status) : M ref := slice (WINDOW this).

(** [this[WINDOW][0]], which must be an object to go on. *)
Definition current (this : Status) : M ref :=
  let! l := read_array (WINDOW this) in
  match l !! 0%nat with
  | Some (Some r) => ret r
  | _ => throw TypeError
  end.

Definition records_latency (property : Property.t) : bool :=
  match property with
  | Property.successes | Property.failures | Property.timeouts => true
  | _ => false
  end.

Definition increment (this : Status) (property : Property.t)
    (latencyRunTime : option Z) : M unit :=
  let! r := current this in
  let! _ := modify_bucket r (λ b, set property (get property b + 1) b) in
  if records_latency property then
    let! r := current this in
    modify_bucket r
      (λ b, set_latencyTimes (latencyTimes b ++ [or_zero latencyRunTime]) b)
  else ret tt.

Definition open (this : Status) : M unit :=
  let! r := current this in
  modify_bucket r (set_isCircuitBreakerOpen (Some true)).

Definition close (this : Status) : M unit :=
  let! r := current this in
  modify_bucket r (set_isCircuitBreakerOpen (Some false)).

(** ** Runs *)

(** What can happen to a [Status] after its construction: a tick of the
    rotation timer, a tick of the snapshot timer or a read of [stats],
    a read of [window], and the three mutation methods. *)
Inductive event : Set :=
| Rotate
| Snapshot
| ReadWindow
| Increment (property : Property.t) (latencyRunTime : option Z)
| Open
| Close.

Definition step (this : Status) (e : event) : M unit :=
  match e with
  | Rotate => nextBucket (WINDOW this)
  | Snapshot => let! _ := stats this in ret tt
  | ReadWindow => let! _ := window this in ret tt
  | Increment property latencyRunTime => increment this property latencyRunTime
  | Open => open this
  | Close => close this
  end.

Fixpoint run (this : Status) (tr : list event) : M unit :=
  match tr with
  | [] => ret tt
  | e :: tr' => let! _ := step this e in run this tr'
  end.

(** The empty store. *)
Definition empty_heap : Heap := mkHeap [] [].

(** ** The caller's side of the [window] accessor *)

(** What a caller can do with the array it got from [window]: change
    the array itself (assign to an index, [push], [pop], [splice], set
    [length]: any new content [f l]), or change the record held at an
    index ([copy[i].successes = 7], [copy[i].latencyTimes.push(1)]: any
    new content [f b]). *)
Inductive mutation : Type :=
| ArrayUpdate (f : list slot → list slot)
| RecordUpdate (i : nat) (f : Bucket → Bucket).

Definition mutate (copy : ref) (m : mutation) : M unit :=
  match m with
  | ArrayUpdate f =>
      let! l := read_array copy in
      write_array copy (f l)
  | RecordUpdate i f =>
      let! l := read_array copy in
      match l !! i with
      | Some (Some r) => modify_bucket r f
      | _ => throw TypeError
      end
  end.

(** The buckets a window refers to, oldest last; [undefined] slots are
    left out, as the reducer leaves them out. *)
Definition window_buckets (h : Heap) (w : list slot) : list Bucket :=
  omap (λ s : slot, s ≫= λ r, buckets h !! r) w.

(** The internal window of a [Status]: its slots and the records they
    hold. *)
Definition internal (this : Status) (h : Heap) : option (list slot * list Bucket) :=
  match arrays h !! WINDOW this with
  | Some w => Some (w, window_buckets h w)
  | None => None
  end.

(** The number of rotations in a run. *)
Fixpoint rotations (tr : list event) : nat :=
  match tr with
  | [] => 0
  | Rotate :: tr' => S (rotations tr')
  | _ :: tr' => rotations tr'
  end.

(** ** Definitions used to state the properties *)

(** The bucket [increment] leaves in place of [b]. *)
Definition incremented (property : Property.t) (latencyRunTime : option Z)
    (b : Bucket) : Bucket :=
  let b := set property (get property b + 1) b in
  if records_latency property
  then set_latencyTimes (latencyTimes b ++ [or_zero latencyRunTime]) b
  else b.

(** Every slot holds a reference to a bucket of the store. *)
Definition defined (h : Heap) (w : list slot) : Prop :=
  Forall (λ s : slot, ∃ r, s = Some r ∧ (r < length (buckets h))%nat) w.

(** The object the constructor returns, allocated in store [h0]. *)
Definition constructed (options : Options.t) (h0 : Heap) : Status :=
  {| WINDOW := length (arrays h0);
     BUCKETS := Options.rollingCountBuckets options;
     TIMEOUT := Options.rollingCountTimeout options;
     PERCENTILES := percentile_table;
     rollingPercentilesEnabled := Options.rollingPercentilesEnabled options;
     bucketInterval :=
       floor (div (of_Z (Options.rollingCountTimeout options))
                  (of_Z (Options.rollingCountBuckets options))) |}.

(** The references held by the window of a [Status] built with [N]
    buckets in a store that had [b0] buckets, after [k] rotations: the
    buckets of the rotations, newest first, then the buckets of the
    constructor, cut to the length of the window.  (An empty window grows
    to one slot at its first rotation: [pop] takes nothing from it.) *)
Definition shape (b0 N k : nat) : list nat :=
  take (N `max` (k `min` 1)) (reverse (seq (b0 + N) k) ++ seq b0 N).

(** The window by value: what the buckets of the window hold, current
    bucket first, and how each event changes it. *)
Definition model_step (e : event) (bs : list Bucket) : list Bucket :=
  match e with
  | Rotate => empty_bucket :: take (length bs - 1) bs
  | Snapshot | ReadWindow => bs
  | Increment property latencyRunTime =>
      alter (incremented property latencyRunTime) 0%nat bs
  | Open => alter (set_isCircuitBreakerOpen (Some true)) 0%nat bs
  | Close => alter (set_isCircuitBreakerOpen (Some false)) 0%nat bs
  end.

Fixpoint model_run (tr : list event) (bs : list Bucket) : list Bucket :=
  match tr with
  | [] => bs
  | e :: tr' => model_run tr' (model_step e bs)
  end.

(** The references [refs] lead to the buckets [bs] in store [h]. *)
Definition points_to (h : Heap) (refs : list nat) (bs : list Bucket) : Prop :=
  Forall2 (λ r b, buckets h !! r = Some b) refs bs.

(** The state of a [Status] built with [N] buckets in a store of [b0]
    buckets, after [k] rotations, its window holding [bs]. *)
Record Inv (this : Status) (b0 N k : nat) (bs : list Bucket) (h : Heap) : Prop := {
  inv_window : arrays h !! WINDOW this = Some (Some <$> shape b0 N k);
  inv_size : length (buckets h) = (b0 + N + k)%nat;
  inv_contents : points_to h (shape b0 N k) bs
}.

(** The latencies of a list of buckets, pooled in window order. *)
Definition pooled (bs : list Bucket) : list Z := concat (latencyTimes <$> bs).

(** The run used as an example below: two latencies recorded in one
    slice, two more in the next. *)
Definition two_slices : list event :=
  [Increment Property.successes (Some 30); Increment Property.failures (Some 10);
   Rotate;
   Increment Property.timeouts (Some 40); Increment Property.successes (Some 20)].

(** C2 as stated, for a window built from [options], a run [tr] and a
    change [m] made through the array that [window] returned: the
    internal window is what it was. *)
Definition window_copy_is_defensive (options : Options.t) (tr : list event)
    (m : mutation) : Prop :=
  ∀ this h h1 copy h2 h3,
    constructor options empty_heap = Ok (this, h) →
    run this tr h = Ok (tt, h1) →
    window this h1 = Ok (copy, h2) →
    mutate copy m h2 = Ok (tt, h3) →
    internal this h3 = internal this h1.

(** C9 as stated, for a window built from [options] and a run [tr]:
    every bucket of the window has a boolean [isCircuitBreakerOpen]. *)
Definition every_flag_is_boolean (options : Options.t) (tr : list event) : Prop :=
  ∀ this h h' w r b,
    constructor options empty_heap = Ok (this, h) →
    run this tr h = Ok (tt, h') →
    arrays h' !! WINDOW this = Some w → Some r ∈ w →
    buckets h' !! r = Some b →
    ∃ v : bool, isCircuitBreakerOpen b = Some v.

(** The [isCircuitBreakerOpen] fields of the window, current bucket
    first, and how each event changes them: a rotation drops the last
    and starts a bucket without the property, [open] and [close] write
    the current one, nothing else touches them. *)
Definition flag_step (e : event) (fs : list (option bool)) : list (option bool) :=
  match e with
  | Rotate => None :: take (length fs - 1) fs
  | Open => alter (λ _, Some true) 0%nat fs
  | Close => alter (λ _, Some false) 0%nat fs
  | Snapshot | ReadWindow | Increment _ _ => fs
  end.

Fixpoint flag_run (tr : list event) (fs : list (option bool)) : list (option bool) :=
  match tr with
  | [] => fs
  | e :: tr' => flag_run tr' (flag_step e fs)
  end.

(** The [isCircuitBreakerOpen] field of the current bucket after a
    run, [f] being the field before it. *)
Fixpoint last_flag (tr : list event) (f : option bool) : option bool :=
  match tr with
  | [] => f
  | Rotate :: tr' => last_flag tr' None
  | Open :: tr' => last_flag tr' (Some true)
  | Close :: tr' => last_flag tr' (Some false)
  | _ :: tr' => last_flag tr' f
  end.

(** C10 as stated, for one call of the constructor. *)
Definition misconfiguration_is_rejected (options : Options.t) : Prop :=
  Options.rollingCountBuckets options ≤ 0 ∨
  Options.rollingCountTimeout options ≤ 0 →
  ∃ e, constructor options empty_heap = Throw e.

(** ** Definitions used to state the further properties *)

(** The events of a run that a window of [N] slices still holds: those
    followed by fewer than [N] rotations. *)
Fixpoint recent (N : nat) (tr : list event) : list event :=
  match tr with
  | [] => []
  | e :: tr' =>
      if decide (rotations tr' < N)%nat then e :: recent N tr' else recent N tr'
  end.

(** The number of [increment(property)] among some events. *)
Fixpoint count (property : Property.t) (evs : list event) : Z :=
  match evs with
  | [] => 0
  | Increment p _ :: evs' =>
      (if decide (p = property) then 1 else 0) + count property evs'
  | _ :: evs' => count property evs'
  end.

(** The latencies that some events record, in the order of the events. *)
Fixpoint latencies (evs : list event) : list Z :=
  match evs with
  | [] => []
  | Increment p latencyRunTime :: evs' =>
      (if records_latency p then [default 0 latencyRunTime] else [])
      ++ latencies evs'
  | _ :: evs' => latencies evs'
  end.

(** The sum of a counter over some buckets. *)
Definition total (property : Property.t) (bs : list Bucket) : Z :=
  foldr Z.add 0 (get property <$> bs).

(** The accumulator [stats] would build from some events alone. *)
Definition tally (enabled : bool) (evs : list event) : Bucket :=
  mkBucket (count Property.failures evs) (count Property.fallbacks evs)
    (count Property.successes evs) (count Property.rejects evs)
    (count Property.fires evs) (count Property.timeouts evs)
    (count Property.cacheHits evs) (count Property.cacheMisses evs)
    (count Property.semaphoreRejections evs)
    ∅ (if enabled then latencies evs else []) None.

(** The number [x] has sign bit [s], or is NaN. *)
Definition has_sign (s : bool) (x : number) : Prop :=
  match x with
  | S754_zero s' | S754_infinity s' | S754_finite s' _ _ => s' = s
  | S754_nan => True
  end.

(** A run of two [Status] objects of one store: [inl e] is an event of
    the first, [inr e] an event of the second. *)
Fixpoint run2 (a b : Status) (tr : list (event + event)) : M unit :=
  match tr with
  | [] => ret tt
  | inl e :: tr' => let! _ := step a e in run2 a b tr'
  | inr e :: tr' => let! _ := step b e in run2 a b tr'
  end.

Fixpoint events_of_first (tr : list (event + event)) : list event :=
  match tr with
  | [] => []
  | inl e :: tr' => e :: events_of_first tr'
  | inr _ :: tr' => events_of_first tr'
  end.

Fixpoint events_of_second (tr : list (event + event)) : list event :=
  match tr with
  | [] => []
  | inl _ :: tr' => events_of_second tr'
  | inr e :: tr' => e :: events_of_second tr'
  end.

(** The window of [this] holds the distinct references [refs], which
    lead to the buckets [bs]; the store may hold other objects. *)
Record Owns (this : Status) (refs : list nat) (bs : list Bucket) (h : Heap) : Prop := {
  owns_window : arrays h !! WINDOW this = Some (Some <$> refs);
  owns_distinct : NoDup refs;
  owns_contents : points_to h refs bs
}.

(** The references of a window after an event. *)
Definition next_refs (e : event) (h : Heap) (refs : list nat) : list nat :=
  match e with
  | Rotate => length (buckets h) :: take (length refs - 1) refs
  | _ => refs
  end.

(** * Properties *)

(** ** Numbers and percentiles *)

Lemma or_zero_Some x : or_zero (Some x) = x.
Proof. unfold or_zero. destruct (Z.eqb_spec x 0); congruence. Qed.

Lemma element_nat arr (i : nat) : element arr (Z.of_nat i) = arr !! i.
Proof.
  unfold element. destruct (Z.ltb_spec (Z.of_nat i) 0); [lia|].
  by rewrite Nat2Z.id.
Qed.

Lemma calculatePercentile_zero p x rest :
  is_zero p = true → calculatePercentile p (x :: rest) = x.
Proof.
  intros Hp. unfold calculatePercentile. rewrite Hp.
  change 0 with (Z.of_nat 0). rewrite element_nat. apply or_zero_Some.
Qed.

Lemma calculatePercentile_rank p arr k :
  is_zero p = false →
  ceil (mul p (of_Z (Z.of_nat (length arr)))) = Some k →
  1 ≤ k ≤ Z.of_nat (length arr) →
  ∃ x, arr !! Z.to_nat (k - 1) = Some x ∧ calculatePercentile p arr = x.
Proof.
  intros Hp Hk Hr. unfold calculatePercentile. rewrite Hp, Hk. simpl.
  destruct (lookup_lt_is_Some_2 arr (Z.to_nat (k - 1))) as [x Hx]; [lia|].
  exists x. split; [done|].
  rewrite <- (Z2Nat.id (k - 1)) by lia. by rewrite element_nat, Hx, or_zero_Some.
Qed.

Lemma calculatePercentile_nil p : calculatePercentile p [] = 0.
Proof.
  unfold calculatePercentile. destruct (is_zero p); [done|].
  destruct (ceil _) as [k|]; [|done]. simpl. unfold element.
  by destruct (k - 1 <? 0).
Qed.

Lemma sort_Sorted l : Sorted Z.le (sort l).
Proof. apply (Sorted_merge_sort Z.le). Qed.

Lemma sort_Permutation l : sort l ≡ₚ l.
Proof. apply merge_sort_Permutation. Qed.

(** ** Binary64 products

    What is needed of [SpecFloat] to place the rank
    [Math.ceil(percentile * arr.length)]: the product of a quantile in
    (0, 1] and a length is rounded to a double that is positive and not
    above the length, because the length is itself a double of the same
    grid. *)

Lemma digits2_pos_size p : digits2_pos p = Pos.size p.
Proof. induction p; simpl; congruence. Qed.

Lemma Zdigits2_bounds p :
  2 ^ (Zdigits2 (Zpos p) - 1) ≤ Zpos p < 2 ^ Zdigits2 (Zpos p).
Proof.
  simpl. rewrite digits2_pos_size.
  pose proof (Pos.size_gt p) as Hgt. pose proof (Pos.size_le p) as Hle.
  apply Pos2Z.pos_lt_pos in Hgt. apply Pos2Z.pos_le_pos in Hle.
  rewrite Pos2Z.inj_pow in Hgt, Hle.
  replace (Z.pos (Pos.size p)) with (Z.succ (Z.pos (Pos.size p) - 1)) in Hle by lia.
  rewrite Z.pow_succ_r in Hle by lia. lia.
Qed.

Lemma Zdigits2_unique p d :
  2 ^ (d - 1) ≤ Zpos p < 2 ^ d → 1 ≤ d → Zdigits2 (Zpos p) = d.
Proof.
  intros [Hlo Hhi] Hd. pose proof (Zdigits2_bounds p) as [Hlo' Hhi'].
  set (D := Zdigits2 (Z.pos p)) in *.
  assert (1 ≤ D) by (unfold D; simpl; lia).
  destruct (Z.lt_trichotomy D d) as [Hlt|[Heq|Hgt]]; [|done|].
  - assert (2 ^ D ≤ 2 ^ (d - 1)) by (apply Z.pow_le_mono_r; lia). lia.
  - assert (2 ^ d ≤ 2 ^ (D - 1)) by (apply Z.pow_le_mono_r; lia). lia.
Qed.

Lemma pow2_xO p : 2 ^ Zpos p~0 = 2 ^ Zpos p * 2 ^ Zpos p.
Proof. rewrite <- Z.pow_add_r by lia. f_equal. lia. Qed.

Lemma pow2_xI p : 2 ^ Zpos p~1 = 2 * (2 ^ Zpos p * 2 ^ Zpos p).
Proof.
  rewrite <- Z.pow_add_r, <- Z.pow_succ_r by lia. f_equal. lia.
Qed.

Lemma shr_1_m x : 0 ≤ shr_m x → shr_m (shr_1 x) = shr_m x / 2.
Proof.
  destruct x as [m r s]. simpl. intros Hm. rewrite <- Z.div2_div.
  destruct m as [|[q|q|]|]; try done; lia.
Qed.

Lemma iter_shr_1_m p : ∀ x,
  0 ≤ shr_m x → shr_m (SpecFloat.iter_pos shr_1 p x) = shr_m x / 2 ^ Zpos p.
Proof.
  induction p as [p IH|p IH|]; intros x Hx; cbn [SpecFloat.iter_pos].
  - assert (0 ≤ shr_m (shr_1 x)) as H1
      by (rewrite shr_1_m by done; apply Z.div_pos; lia).
    assert (0 ≤ shr_m (SpecFloat.iter_pos shr_1 p (shr_1 x))) as H2
      by (rewrite IH by done; apply Z.div_pos; lia).
    rewrite !IH, shr_1_m, !Z.div_div, pow2_xI by lia. done.
  - assert (0 ≤ shr_m (SpecFloat.iter_pos shr_1 p x)) as H2
      by (rewrite IH by done; apply Z.div_pos; lia).
    rewrite !IH, !Z.div_div, pow2_xO by lia. done.
  - by apply shr_1_m.
Qed.

Lemma shr_1_exact c :
  0 ≤ c → shr_1 (Build_shr_record (2 * c) false false) = Build_shr_record c false false.
Proof. intros Hc. destruct c as [|q|q]; [done|done|lia]. Qed.

Lemma iter_shr_1_exact p : ∀ c,
  0 ≤ c →
  SpecFloat.iter_pos shr_1 p (Build_shr_record (c * 2 ^ Zpos p) false false)
  = Build_shr_record c false false.
Proof.
  induction p as [p IH|p IH|]; intros c Hc; cbn [SpecFloat.iter_pos].
  - rewrite pow2_xI.
    replace (c * (2 * (2 ^ Z.pos p * 2 ^ Z.pos p)))
      with (2 * (c * 2 ^ Z.pos p * 2 ^ Z.pos p)) by lia.
    rewrite shr_1_exact, !IH by lia. done.
  - rewrite pow2_xO, Z.mul_assoc, !IH by lia. done.
  - replace (c * 2 ^ 1) with (2 * c) by lia. by apply shr_1_exact.
Qed.

Lemma round_nearest_even_bounds m l :
  m ≤ round_nearest_even m l ≤ m + 1.
Proof. destruct l as [|[]]; simpl; try lia. destruct (Z.even m); lia. Qed.

Lemma shr_fexp_shift (M : positive) (E : Z) (sp : positive) :
  Zdigits2 (Zpos M) - 53 = Zpos sp → -1000 ≤ E →
  shr_fexp 53 1024 (Zpos M) E loc_Exact
  = (SpecFloat.iter_pos shr_1 sp (Build_shr_record (Zpos M) false false),
     E + Zpos sp).
Proof.
  intros Hs HE. unfold shr_fexp, fexp, emin.
  replace (Z.max (Zdigits2 (Z.pos M) + E - 53) (3 - 1024 - 53) - E)
    with (Zpos sp) by lia.
  done.
Qed.

Lemma shr_fexp_noshift (M : positive) (E : Z) :
  Zdigits2 (Zpos M) = 53 → -1000 ≤ E →
  shr_fexp 53 1024 (Zpos M) E loc_Exact
  = (Build_shr_record (Zpos M) false false, E).
Proof.
  intros Hs HE. unfold shr_fexp, fexp, emin.
  replace (Z.max (Zdigits2 (Z.pos M) + E - 53) (3 - 1024 - 53) - E)
    with 0 by lia.
  done.
Qed.

Lemma round_up_le (M B s : Z) l :
  0 < M → 0 ≤ s ≤ 53 → M ≤ B → (2 ^ 53 | B) →
  (M = B → l = loc_Exact) →
  round_nearest_even (M / 2 ^ s) l * 2 ^ s ≤ B.
Proof.
  intros HM Hs HB [b' Hb'] Hex.
  assert (0 < 2 ^ s) as Hpow by (apply Z.pow_pos_nonneg; lia).
  assert (B = (b' * 2 ^ (53 - s)) * 2 ^ s) as Hb.
  { rewrite <- Z.mul_assoc, <- Z.pow_add_r by lia.
    by replace (53 - s + s) with 53 by lia. }
  set (b := b' * 2 ^ (53 - s)) in *.
  destruct (decide (M = B)) as [->|Hne].
  - rewrite (Hex eq_refl). simpl. rewrite Hb at 1. rewrite Z.div_mul by lia. lia.
  - assert (M / 2 ^ s < b) by (apply Z.div_lt_upper_bound; lia).
    pose proof (round_nearest_even_bounds (M / 2 ^ s) l). nia.
Qed.

Lemma round_aux_le (M : positive) (E B : Z) :
  2 ^ 104 ≤ Zpos M < 2 ^ 106 → -200 ≤ E ≤ 0 →
  Zpos M ≤ B → (2 ^ 53 | B) →
  ∃ m3 e3,
    binary_round_aux 53 1024 false (Zpos M) E loc_Exact = S754_finite false m3 e3 ∧
    E ≤ e3 ≤ E + 54 ∧ Zpos m3 * 2 ^ (e3 - E) ≤ B.
Proof.
  intros HM HE HB Hdiv.
  pose proof (Zdigits2_bounds M) as HD.
  set (D := Zdigits2 (Zpos M)) in *.
  assert (105 ≤ D ≤ 106) as HDr.
  { assert (1 ≤ D) by (unfold D; simpl; lia). split.
    - destruct (decide (105 ≤ D)); [done|].
      assert (2 ^ D ≤ 2 ^ 104) by (apply Z.pow_le_mono_r; lia). lia.
    - destruct (decide (D ≤ 106)); [done|].
      assert (2 ^ 106 ≤ 2 ^ (D - 1)) by (apply Z.pow_le_mono_r; lia). lia. }
  destruct (D - 53) as [|sp|sp] eqn:Hs; [lia| |lia].
  set (s := Zpos sp) in *.
  assert (0 < 2 ^ s) as Hpow by (apply Z.pow_pos_nonneg; lia).
  unfold binary_round_aux.
  rewrite (shr_fexp_shift M E sp) by (fold D; lia).
  set (rec1 := SpecFloat.iter_pos shr_1 sp _).
  assert (shr_m rec1 = Zpos M / 2 ^ s) as Hm1
    by (unfold rec1; rewrite iter_shr_1_m; simpl; [done|lia]).
  rewrite Hm1.
  set (l1 := loc_of_shr_record rec1).
  (* the mantissa after the first shift is normal *)
  assert (2 ^ 52 ≤ Zpos M / 2 ^ s < 2 ^ 53) as Hm1r.
  { replace (D - 1) with (s + 52) in HD by lia. replace D with (s + 53) in HD by lia.
    rewrite !Z.pow_add_r in HD by lia. split.
    - apply Z.div_le_lower_bound; lia.
    - apply Z.div_lt_upper_bound; lia. }
  (* rounding stays below a bound on the grid *)
  assert (round_nearest_even (Zpos M / 2 ^ s) l1 * 2 ^ s ≤ B) as Hround.
  { apply round_up_le; [lia|lia|done|done|].
    intros <-. destruct Hdiv as [b' Hb'].
    unfold l1, rec1. rewrite Hb'.
    replace (b' * 2 ^ 53) with (b' * 2 ^ (53 - s) * 2 ^ s).
    2:{ rewrite <- Z.mul_assoc, <- Z.pow_add_r by lia. do 2 f_equal. lia. }
    rewrite iter_shr_1_exact; [done|].
    assert (0 < 2 ^ (53 - s)) by (apply Z.pow_pos_nonneg; lia). nia. }
  pose proof (round_nearest_even_bounds (Zpos M / 2 ^ s) l1) as Hm2.
  set (m2 := round_nearest_even _ _) in *.
  destruct m2 as [|m2p|m2p] eqn:Hm2e; [lia| |lia].
  destruct (decide (Zpos m2p < 2 ^ 53)) as [Hlt|Hge].
  - (* no second shift *)
    rewrite shr_fexp_noshift by (try apply Zdigits2_unique; lia).
    cbn [shr_m]. rewrite (proj2 (Z.leb_le _ _)) by lia.
    exists m2p, (E + s). split_and!; [done|lia|lia|].
    by replace (E + s - E) with s by lia.
  - (* the rounding reached 2^53: one more shift *)
    rewrite (shr_fexp_shift m2p _ 1)
      by (try (rewrite (Zdigits2_unique m2p 54)); lia).
    rewrite iter_shr_1_m by (simpl; lia). cbn [shr_m].
    change (2 ^ Z.pos 1) with 2.
    assert (2 ^ 52 ≤ Zpos m2p / 2) by (apply Z.div_le_lower_bound; lia).
    pose proof (Z.mul_div_le (Zpos m2p) 2 ltac:(lia)) as Hhalf.
    destruct (Zpos m2p / 2) as [|m3|m3] eqn:Hm3; [lia| |lia].
    rewrite (proj2 (Z.leb_le _ _)) by lia.
    eexists _, _. split_and!; [done|lia|lia|].
    replace (E + Z.pos sp + 1 - E) with (s + 1) by lia.
    rewrite Z.pow_add_r by lia. nia.
Qed.

Lemma round_aux_exact (m : positive) (e : Z) :
  2 ^ 52 ≤ Zpos m < 2 ^ 53 → -1000 ≤ e ≤ 900 →
  binary_round_aux 53 1024 false (Zpos m) e loc_Exact = S754_finite false m e.
Proof.
  intros Hm He. unfold binary_round_aux.
  rewrite shr_fexp_noshift by (try apply Zdigits2_unique; lia).
  cbn [shr_m loc_of_shr_record round_nearest_even].
  rewrite shr_fexp_noshift by (try apply Zdigits2_unique; lia).
  cbn [shr_m]. by rewrite (proj2 (Z.leb_le _ _)) by lia.
Qed.

Lemma iter_xO p q : Zpos (Pos.iter xO p q) = Zpos p * 2 ^ Zpos q.
Proof.
  induction q as [|q IH] using Pos.peano_ind.
  - simpl. lia.
  - rewrite Pos.iter_succ, Pos2Z.inj_succ, Z.pow_succ_r by lia.
    set (r := Pos.iter xO p q) in *. lia.
Qed.


(** An integer with fewer than 53 digits is a double as it is. *)
Lemma of_Z_normal n :
  1 ≤ n < 2 ^ 52 →
  ∃ mn en, of_Z n = S754_finite false mn en ∧
           -52 ≤ en ≤ -1 ∧ 2 ^ 52 ≤ Zpos mn < 2 ^ 53 ∧
           Zpos mn = n * 2 ^ (- en).
Proof.
  intros Hn. destruct n as [|np|np]; [lia| |lia].
  pose proof (Zdigits2_bounds np) as Hd.
  set (d := Zdigits2 (Zpos np)) in *.
  assert (1 ≤ d ≤ 52) as Hdr.
  { assert (1 ≤ d) by (unfold d; simpl; lia). split; [done|].
    destruct (decide (d ≤ 52)); [done|].
    assert (2 ^ 52 ≤ 2 ^ (d - 1)) by (apply Z.pow_le_mono_r; lia). lia. }
  unfold of_Z, prec, emax, binary_normalize, binary_round, shl_align, fexp, emin.
  change (Z.pos (digits2_pos np)) with d.
  replace (Z.max (d + 0 - 53) (3 - 1024 - 53) - 0) with (d - 53) by lia.
  replace (Z.max (d + 0 - 53) (3 - 1024 - 53)) with (d - 53) by lia.
  destruct (d - 53) as [|q|q] eqn:Hq; [lia|lia|].
  assert (Zpos q = 53 - d) as Hq' by lia.
  pose proof (iter_xO np q) as Hmz.
  assert (2 ^ 52 ≤ Zpos (Pos.iter xO np q) < 2 ^ 53) as Hr.
  { rewrite Hmz, Hq'.
    assert (2 ^ 52 = 2 ^ (d - 1) * 2 ^ (53 - d)) as ->
      by (rewrite <- Z.pow_add_r by lia; f_equal; lia).
    assert (2 ^ 53 = 2 ^ d * 2 ^ (53 - d)) as ->
      by (rewrite <- Z.pow_add_r by lia; f_equal; lia).
    assert (0 < 2 ^ (53 - d)) by (apply Z.pow_pos_nonneg; lia). nia. }
  rewrite round_aux_exact; [|exact Hr|lia].
  eexists _, _. split_and!; [done|lia|lia|apply Hr|apply Hr|].
  exact Hmz.
Qed.


(** The rank of a quantile in (0, 1] among [n] elements is in 1..n. *)
Lemma rank_in_range (mp : positive) (ep n : Z) :
  2 ^ 52 ≤ Zpos mp < 2 ^ 53 → -100 ≤ ep ≤ -52 → Zpos mp ≤ 2 ^ (- ep) →
  1 ≤ n < 2 ^ 52 →
  ∃ k, ceil (mul (S754_finite false mp ep) (of_Z n)) = Some k ∧ 1 ≤ k ≤ n.
Proof.
  intros Hmp Hep Hle Hn.
  destruct (of_Z_normal n Hn) as (mn & en & -> & Hen & Hmn & Hval).
  unfold mul, prec, emax, SFmul. cbn [xorb]. rewrite Pos2Z.inj_mul.
  set (E := ep + en).
  assert (0 < 2 ^ (- ep)) as Hpe by (apply Z.pow_pos_nonneg; lia).
  assert (0 < 2 ^ (- en)) as Hpn by (apply Z.pow_pos_nonneg; lia).
  assert (0 < 2 ^ (- E)) as HpE by (apply Z.pow_pos_nonneg; lia).
  assert (2 ^ (- E) = 2 ^ (- en) * 2 ^ (- ep)) as HE
    by (rewrite <- Z.pow_add_r by lia; f_equal; lia).
  destruct (round_aux_le (mp * mn) E (n * 2 ^ (- E)))
    as (m3 & e3 & Hround & He3 & Hbound).
  - rewrite Pos2Z.inj_mul.
    change (2 ^ 104) with (2 ^ 52 * 2 ^ 52). change (2 ^ 106) with (2 ^ 53 * 2 ^ 53).
    nia.
  - lia.
  - rewrite Pos2Z.inj_mul, HE, Hval. nia.
  - exists (n * 2 ^ (- E - 53)).
    rewrite <- Z.mul_assoc, <- Z.pow_add_r by lia. do 2 f_equal. lia.
  - rewrite Pos2Z.inj_mul in Hround. rewrite Hround. cbn [ceil cond_Zopp].
    eexists. split; [done|].
    assert (0 < 2 ^ (e3 - E)) as Hp3 by (apply Z.pow_pos_nonneg; lia).
    destruct (Z.leb_spec 0 e3) as [Hpos|Hneg].
    + assert (2 ^ (e3 - E) = 2 ^ e3 * 2 ^ (- E)) as Hsplit
        by (rewrite <- Z.pow_add_r by lia; f_equal; lia).
      assert (0 < 2 ^ e3) by (apply Z.pow_pos_nonneg; lia).
      rewrite Hsplit in Hbound. nia.
    + assert (2 ^ (- E) = 2 ^ (e3 - E) * 2 ^ (- e3)) as Hsplit
        by (rewrite <- Z.pow_add_r by lia; f_equal; lia).
      assert (0 < 2 ^ (- e3)) by (apply Z.pow_pos_nonneg; lia).
      rewrite Hsplit in Hbound.
      assert (Zpos m3 ≤ n * 2 ^ (- e3)) by nia.
      split.
      * assert (- Zpos m3 / 2 ^ (- e3) < 0)
          by (apply Z.div_lt_upper_bound; lia). lia.
      * assert (- n ≤ - Zpos m3 / 2 ^ (- e3))
          by (apply Z.div_le_lower_bound; lia). lia.
Qed.

(** Every configured quantile but [0.0] is such a number. *)
Lemma configured_rank_in_range p n :
  p ∈ percentile_table → is_zero p = false → 1 ≤ n < 2 ^ 52 →
  ∃ k, ceil (mul p (of_Z n)) = Some k ∧ 1 ≤ k ≤ n.
Proof.
  intros Hp Hz Hn. unfold percentile_table in Hp.
  repeat (apply elem_of_cons in Hp as [->|Hp]);
    [done|..|by apply elem_of_nil in Hp];
    match goal with
    | |- context [mul ?q _] =>
        let v := eval vm_compute in q in change q with v
    end;
    (apply rank_in_range; [by vm_compute|by vm_compute|by vm_compute|done]).
Qed.

(** ** The store: what each operation returns *)

Ltac unfold_M :=
  unfold window, increment, open, close, nextBucket;
  unfold slice, current;
  unfold bind, ret, throw, read_array, write_array, alloc_array, read_bucket,
    modify_bucket, bucket; simpl.

Lemma nextBucket_ok w l h :
  arrays h !! w = Some l →
  nextBucket w h =
    Ok (tt, mkHeap (<[w := unshift (Some (length (buckets h))) (pop l)]> (arrays h))
                   (buckets h ++ [empty_bucket])).
Proof.
  intros Hw. pose proof (lookup_lt_Some _ _ _ Hw) as Hlt.
  unfold_M. rewrite Hw. simpl. rewrite Hw. simpl.
  rewrite list_lookup_insert_eq by done. simpl.
  rewrite list_lookup_insert_eq by done.
  by rewrite list_insert_insert_eq.
Qed.

Lemma window_ok this l h :
  arrays h !! WINDOW this = Some l →
  window this h = Ok (length (arrays h), mkHeap (arrays h ++ [l]) (buckets h)).
Proof. intros Hw. unfold_M. by rewrite Hw. Qed.

Lemma increment_ok this property latencyRunTime r l b h :
  arrays h !! WINDOW this = Some (Some r :: l) →
  buckets h !! r = Some b →
  increment this property latencyRunTime h =
    Ok (tt, mkHeap (arrays h) (<[r := incremented property latencyRunTime b]> (buckets h))).
Proof.
  intros Hw Hb. pose proof (lookup_lt_Some _ _ _ Hb) as Hlt.
  unfold_M. rewrite Hw. simpl. rewrite Hb. unfold incremented.
  destruct (records_latency property); [|done].
  simpl. rewrite Hw. simpl. rewrite list_lookup_insert_eq by done.
  by rewrite list_insert_insert_eq.
Qed.

Lemma increment_TypeError this property latencyRunTime h :
  arrays h !! WINDOW this = Some [] →
  increment this property latencyRunTime h = Throw TypeError.
Proof. intros Hw. unfold_M. by rewrite Hw. Qed.

Lemma open_ok this r l b h :
  arrays h !! WINDOW this = Some (Some r :: l) →
  buckets h !! r = Some b →
  open this h =
    Ok (tt, mkHeap (arrays h) (<[r := set_isCircuitBreakerOpen (Some true) b]> (buckets h))).
Proof. intros Hw Hb. unfold_M. rewrite Hw. simpl. by rewrite Hb. Qed.

Lemma close_ok this r l b h :
  arrays h !! WINDOW this = Some (Some r :: l) →
  buckets h !! r = Some b →
  close this h =
    Ok (tt, mkHeap (arrays h) (<[r := set_isCircuitBreakerOpen (Some false) b]> (buckets h))).
Proof. intros Hw Hb. unfold_M. rewrite Hw. simpl. by rewrite Hb. Qed.

Lemma reduce_ok enabled h w acc :
  defined h w →
  reduce enabled w acc h = Ok (foldl (accumulate enabled) acc (window_buckets h w), h).
Proof.
  intros Hw. revert acc. induction Hw as [|s w (r & -> & Hr) _ IH]; intros acc.
  - done.
  - destruct (lookup_lt_is_Some_2 _ _ Hr) as [b Hb].
    simpl. unfold bind, read_bucket. rewrite Hb.
    simpl. apply IH.
Qed.

Lemma stats_ok this h w :
  arrays h !! WINDOW this = Some w →
  defined h w →
  stats this h =
    Ok (summarise this
          (foldl (accumulate (rollingPercentilesEnabled this)) empty_bucket
                 (window_buckets h w)), h).
Proof.
  intros Hw Hd. unfold stats. unfold bind at 1. unfold read_array. rewrite Hw.
  unfold bind. by rewrite reduce_ok.
Qed.

(** *** Construction *)

Lemma prime_ok w count : ∀ pre h,
  arrays h !! w = Some (pre ++ replicate count None) →
  prime w (length pre) count h =
    Ok (tt, mkHeap (<[w := pre ++ (Some <$> seq (length (buckets h)) count)]> (arrays h))
                   (buckets h ++ replicate count empty_bucket)).
Proof.
  induction count as [|count IH]; intros pre h Hw.
  - simpl in *. rewrite !app_nil_r in *. rewrite list_insert_id by done.
    by destruct h.
  - pose proof (lookup_lt_Some _ _ _ Hw) as Hlt.
    simpl. unfold_M. rewrite Hw. simpl.
    set (b := length (buckets h)).
    assert (assign (pre ++ None :: replicate count None) (length pre) (Some b)
            = (pre ++ [Some b]) ++ replicate count None) as ->.
    { unfold assign. rewrite decide_True by (rewrite length_app; simpl; lia).
      rewrite <- (Nat.add_0_r (length pre)) at 1.
      rewrite insert_app_r. simpl. by rewrite <- app_assoc. }
    replace (S (length pre)) with (length (pre ++ [Some b]))
      by (rewrite length_app; simpl; lia).
    rewrite Hw. rewrite IH; simpl.
    + rewrite list_insert_insert_eq, length_app, <- !app_assoc. simpl.
      by rewrite Nat.add_1_r.
    + by rewrite list_lookup_insert_eq.
Qed.

Lemma constructor_ok options h0 :
  let n := Options.rollingCountBuckets options in
  0 ≤ n < 2 ^ 32 →
  constructor options h0 =
    Ok (constructed options h0,
        mkHeap (arrays h0 ++ [Some <$> seq (length (buckets h0)) (Z.to_nat n)])
               (buckets h0 ++ replicate (Z.to_nat n) empty_bucket)).
Proof.
  intros n Hn. unfold constructor, new_Array. fold n.
  destruct (Z.ltb_spec n 0); [lia|]. destruct (Z.leb_spec (2 ^ 32) n); [lia|].
  simpl. unfold bind at 1. unfold alloc_array.
  unfold bind. change 0%nat with (length (@nil (option nat))).
  rewrite prime_ok; simpl.
  - unfold ret, constructed. fold n. do 3 f_equal.
    rewrite <- (Nat.add_0_r (length (arrays h0))) at 1.
    by rewrite insert_app_r.
  - by rewrite list_lookup_middle.
Qed.

Lemma constructor_RangeError options h0 :
  let n := Options.rollingCountBuckets options in
  n < 0 ∨ 2 ^ 32 ≤ n →
  constructor options h0 = Throw RangeError.
Proof.
  intros n Hn. unfold constructor, new_Array. fold n.
  destruct (Z.ltb_spec n 0); [done|]. destruct (Z.leb_spec (2 ^ 32) n); [done|lia].
Qed.

(** ** The window along a run *)

Lemma shape_0 b0 N : shape b0 N 0 = seq b0 N.
Proof.
  unfold shape. simpl. rewrite Nat.max_0_r. apply take_ge. by rewrite length_seq.
Qed.

Lemma shape_length b0 N k : length (shape b0 N k) = (N `max` (k `min` 1))%nat.
Proof.
  unfold shape. rewrite length_take, length_app, length_reverse, !length_seq. lia.
Qed.

Lemma shape_S b0 N k :
  unshift (Some (b0 + N + k)%nat) (pop (Some <$> shape b0 N k))
  = Some <$> shape b0 N (S k).
Proof.
  unfold unshift, pop. rewrite length_fmap, shape_length, <- fmap_take.
  unfold shape at 2. rewrite seq_S, reverse_snoc.
  replace (N `max` (S k `min` 1))%nat with (S (N `max` 1 - 1)) by lia.
  simpl. do 2 f_equal.
  unfold shape. rewrite take_take. f_equal. lia.
Qed.

Lemma shape_bound b0 N k r : r ∈ shape b0 N k → (r < b0 + N + k)%nat.
Proof.
  unfold shape. intros [i [Hi _]]%elem_of_take.
  apply list_elem_of_lookup_2 in Hi.
  rewrite elem_of_app, elem_of_reverse, !elem_of_seq in Hi. lia.
Qed.

Lemma shape_NoDup b0 N k : NoDup (shape b0 N k).
Proof.
  unfold shape. eapply sublist_NoDup; [|apply sublist_take].
  apply NoDup_app. split_and!.
  - rewrite reverse_Permutation. apply NoDup_seq.
  - intros r Hr Hr'. rewrite elem_of_reverse in Hr.
    rewrite elem_of_seq in Hr, Hr'. lia.
  - apply NoDup_seq.
Qed.

Lemma shape_lookup b0 N k i :
  (0 < N)%nat →
  shape b0 N k !! i =
    if decide (i < N)%nat then
      if decide (i < k)%nat then Some (b0 + N + k - 1 - i)%nat
      else Some (b0 + (i - k))%nat
    else None.
Proof.
  intros HN. unfold shape. replace (N `max` (k `min` 1))%nat with N by lia.
  case_decide as Hi; [|apply lookup_take_ge; lia].
  rewrite lookup_take_lt by done.
  case_decide as Hk.
  - rewrite lookup_app_l by (by rewrite length_reverse, length_seq).
    rewrite reverse_lookup by (by rewrite length_seq).
    rewrite length_seq, lookup_seq_lt by lia. f_equal. lia.
  - rewrite lookup_app_r by (rewrite length_reverse, length_seq; lia).
    rewrite length_reverse, length_seq, lookup_seq_lt by lia. done.
Qed.

Lemma shape_S' b0 N k :
  shape b0 N (S k)
  = (b0 + N + k)%nat :: take (length (shape b0 N k) - 1) (shape b0 N k).
Proof.
  pose proof (shape_S b0 N k) as H. unfold unshift, pop in H.
  rewrite length_fmap, <- fmap_take in H.
  change (Some (b0 + N + k)%nat :: (Some <$> ?l))
    with (Some <$> ((b0 + N + k)%nat :: l)) in H.
  by apply (inj (fmap Some)) in H.
Qed.

Lemma points_to_defined h refs bs : points_to h refs bs → defined h (Some <$> refs).
Proof.
  induction 1 as [|r b refs bs Hr _ IH]; constructor; [|done].
  exists r. split; [done|]. by eapply lookup_lt_Some.
Qed.

Lemma points_to_window_buckets h refs bs :
  points_to h refs bs → window_buckets h (Some <$> refs) = bs.
Proof.
  induction 1 as [|r b refs bs Hr _ IH]; [done|].
  unfold window_buckets in *. simpl. rewrite Hr. simpl. by f_equal.
Qed.

Lemma points_to_update h refs bs r x :
  r ∉ refs → points_to h refs bs →
  points_to (mkHeap (arrays h) (<[r := x]> (buckets h))) refs bs.
Proof.
  intros Hr H. induction H as [|r' b refs bs Hr' _ IH]; constructor.
  - simpl. rewrite list_lookup_insert_ne; [done|]. set_solver.
  - apply IH. set_solver.
Qed.

Lemma points_to_alloc h refs bs a x :
  points_to h refs bs →
  points_to (mkHeap a (buckets h ++ x)) refs bs.
Proof.
  intros H. eapply Forall2_impl; [exact H|]. intros r b Hr. simpl.
  by apply lookup_app_l_Some.
Qed.

Lemma Inv_constructed options h0 :
  let n := Options.rollingCountBuckets options in
  0 ≤ n →
  Inv (constructed options h0) (length (buckets h0)) (Z.to_nat n) 0
      (replicate (Z.to_nat n) empty_bucket)
      (mkHeap (arrays h0 ++ [Some <$> seq (length (buckets h0)) (Z.to_nat n)])
              (buckets h0 ++ replicate (Z.to_nat n) empty_bucket)).
Proof.
  intros n Hn. split; simpl.
  - by rewrite shape_0, list_lookup_middle.
  - rewrite length_app, length_replicate. lia.
  - rewrite shape_0. apply Forall2_lookup. intros i. simpl.
    destruct (decide (i < Z.to_nat n)%nat).
    + rewrite lookup_seq_lt, lookup_replicate_2 by done. constructor.
      rewrite lookup_app_r by lia.
      replace (length (buckets h0) + i - length (buckets h0))%nat with i by lia.
      by apply lookup_replicate_2.
    + rewrite lookup_seq_ge, (lookup_ge_None_2 (replicate _ _)); [constructor| |lia].
      rewrite length_replicate. lia.
Qed.

Lemma step_spec this b0 N k bs h e :
  Inv this b0 N k bs h →
  match step this e h with
  | Ok (_, h') => Inv this b0 N (rotations [e] + k) (model_step e bs) h'
  | Throw err => err = TypeError ∧ bs = []
  end.
Proof.
  intros [Hw Hs Hc].
  assert (∀ f, match shape b0 N k with
               | [] => bs = []
               | r :: rest => ∃ b bs', bs = b :: bs' ∧ buckets h !! r = Some b ∧
                   Inv this b0 N k (alter f 0%nat bs)
                     (mkHeap (arrays h) (<[r := f b]> (buckets h)))
               end) as Hcur.
  { intros f. pose proof (shape_NoDup b0 N k) as Hnd.
    destruct (shape b0 N k) as [|r rest] eqn:Hshape.
    { by apply Forall2_nil_inv_l in Hc. }
    apply Forall2_cons_inv_l in Hc as (b & bs' & Hr & Hc & ->).
    exists b, bs'. split_and!; [done..|].
    apply NoDup_cons in Hnd as [Hnot _].
    split; simpl; rewrite ?Hshape; [done|by rewrite length_insert|].
    constructor; [|by apply points_to_update].
    simpl. apply list_lookup_insert_eq. by eapply lookup_lt_Some. }
  destruct e as [| | |property latencyRunTime| |]; unfold step.
  - rewrite (nextBucket_ok _ _ _ Hw). split; simpl.
    + rewrite list_lookup_insert_eq by by eapply lookup_lt_Some.
      by rewrite Hs, shape_S.
    + rewrite length_app. simpl. lia.
    + rewrite shape_S'. constructor.
      * simpl. rewrite <- Hs. by apply list_lookup_middle.
      * rewrite (Forall2_length _ _ _ Hc).
        apply points_to_alloc, Forall2_take, Hc.
  - unfold bind. rewrite (stats_ok _ _ _ Hw) by by eapply points_to_defined.
    by split.
  - unfold bind. rewrite (window_ok _ _ _ Hw). split; simpl; [|done..].
    by apply lookup_app_l_Some.
  - specialize (Hcur (incremented property latencyRunTime)).
    destruct (shape b0 N k) as [|r rest].
    + by rewrite increment_TypeError.
    + destruct Hcur as (b & bs' & -> & Hr & HI).
      by rewrite (increment_ok _ _ _ _ _ _ _ Hw Hr).
  - specialize (Hcur (set_isCircuitBreakerOpen (Some true))).
    destruct (shape b0 N k) as [|r rest].
    + unfold_M. by rewrite Hw.
    + destruct Hcur as (b & bs' & -> & Hr & HI).
      by rewrite (open_ok _ _ _ _ _ Hw Hr).
  - specialize (Hcur (set_isCircuitBreakerOpen (Some false))).
    destruct (shape b0 N k) as [|r rest].
    + unfold_M. by rewrite Hw.
    + destruct Hcur as (b & bs' & -> & Hr & HI).
      by rewrite (close_ok _ _ _ _ _ Hw Hr).
Qed.

Lemma Inv_length this b0 N k bs h :
  Inv this b0 N k bs h → length bs = (N `max` (k `min` 1))%nat.
Proof.
  intros [_ _ Hc]. by rewrite <- (Forall2_length _ _ _ Hc), shape_length.
Qed.

Lemma rotations_cons e tr : rotations (e :: tr) = (rotations [e] + rotations tr)%nat.
Proof. by destruct e. Qed.

Lemma run_spec this b0 N tr : ∀ k bs h,
  Inv this b0 N k bs h →
  match run this tr h with
  | Ok (_, h') => Inv this b0 N (rotations tr + k) (model_run tr bs) h'
  | Throw err => err = TypeError ∧ N = 0%nat
  end.
Proof.
  induction tr as [|e tr IH]; intros k bs h HI; [done|].
  pose proof (step_spec _ _ _ _ _ _ e HI) as Hstep.
  simpl run. unfold bind. destruct (step this e h) as [[[] h1]|err].
  - specialize (IH _ _ _ Hstep). destruct (run this tr h1) as [[[] h2]|err]; [|done].
    rewrite rotations_cons. simpl model_run.
    by replace (rotations [e] + rotations tr + k)%nat
      with (rotations tr + (rotations [e] + k))%nat by lia.
  - destruct Hstep as [-> ->]. apply Inv_length in HI. simpl in HI. split; [done|lia].
Qed.

(** A window built with at least one bucket never fails. *)
Lemma run_ok this b0 N k bs h tr :
  (0 < N)%nat → Inv this b0 N k bs h →
  ∃ h', run this tr h = Ok (tt, h') ∧
        Inv this b0 N (rotations tr + k) (model_run tr bs) h'.
Proof.
  intros HN HI. pose proof (run_spec _ _ _ tr _ _ _ HI) as H.
  destruct (run this tr h) as [[[] h']|err]; [by exists h'|lia].
Qed.

Lemma run_Inv this b0 N k bs h tr h' :
  Inv this b0 N k bs h → run this tr h = Ok (tt, h') →
  Inv this b0 N (rotations tr + k) (model_run tr bs) h'.
Proof.
  intros HI Hrun. pose proof (run_spec _ _ _ tr _ _ _ HI) as H.
  by rewrite Hrun in H.
Qed.

(** Every successful construction is the one of [constructor_ok]. *)
Lemma constructor_inv options h0 this h :
  constructor options h0 = Ok (this, h) →
  let n := Options.rollingCountBuckets options in
  0 ≤ n < 2 ^ 32 ∧ this = constructed options h0 ∧
  h = mkHeap (arrays h0 ++ [Some <$> seq (length (buckets h0)) (Z.to_nat n)])
             (buckets h0 ++ replicate (Z.to_nat n) empty_bucket) ∧
  Inv this (length (buckets h0)) (Z.to_nat n) 0
      (replicate (Z.to_nat n) empty_bucket) h.
Proof.
  intros H n.
  destruct (decide (0 ≤ n < 2 ^ 32)) as [Hn|Hn].
  - rewrite constructor_ok in H by done. injection H as <- <-.
    split_and!; [lia..|done|done|]. apply Inv_constructed. lia.
  - rewrite constructor_RangeError in H; [done|]. fold n. lia.
Qed.

(** ** Aggregation *)

Lemma accumulate_eq enabled acc val :
  accumulate enabled acc val =
    mkBucket (failures acc + failures val) (fallbacks acc + fallbacks val)
      (successes acc + successes val) (rejects acc + rejects val)
      (fires acc + fires val) (timeouts acc + timeouts val)
      (cacheHits acc + cacheHits val) (cacheMisses acc + cacheMisses val)
      (semaphoreRejections acc + semaphoreRejections val)
      (percentiles acc)
      (latencyTimes acc ++ if enabled then latencyTimes val else [])
      (isCircuitBreakerOpen acc).
Proof.
  destruct acc, val. unfold accumulate. cbn -[or_zero Z.add].
  rewrite !or_zero_Some. destruct enabled; simpl; by rewrite ?app_nil_r.
Qed.

Lemma foldl_accumulate_get enabled property bs : ∀ acc,
  get property (foldl (accumulate enabled) acc bs)
  = get property acc + foldr Z.add 0 (get property <$> bs).
Proof.
  induction bs as [|b bs IH]; intros acc; simpl; [lia|].
  rewrite IH, accumulate_eq. destruct property; simpl; by rewrite Z.add_assoc.
Qed.

Lemma foldl_accumulate_latencyTimes enabled bs : ∀ acc,
  latencyTimes (foldl (accumulate enabled) acc bs)
  = latencyTimes acc ++ if enabled then pooled bs else [].
Proof.
  induction bs as [|b bs IH]; intros acc; simpl.
  - destruct enabled; by rewrite app_nil_r.
  - rewrite IH, accumulate_eq. simpl. unfold pooled.
    destruct enabled; simpl; by rewrite <- ?app_assoc, ?app_nil_r.
Qed.

Lemma foldl_accumulate_percentiles enabled bs : ∀ acc,
  percentiles (foldl (accumulate enabled) acc bs) = percentiles acc.
Proof.
  induction bs as [|b bs IH]; intros acc; simpl; [done|].
  by rewrite IH, accumulate_eq.
Qed.

Lemma summarise_get this t property :
  get property (totals (summarise this t)) = get property t.
Proof.
  unfold summarise. destruct (rollingPercentilesEnabled this), t, property; done.
Qed.

Lemma summarise_latencyTimes this t :
  latencyTimes (totals (summarise this t))
  = if rollingPercentilesEnabled this then sort (latencyTimes t) else latencyTimes t.
Proof.
  unfold summarise. by destruct (rollingPercentilesEnabled this), t.
Qed.

Lemma summarise_percentiles this t :
  percentiles (totals (summarise this t))
  = foldl (λ ps p, <[p := if rollingPercentilesEnabled this
                         then calculatePercentile p (sort (latencyTimes t))
                         else -1]> ps)
          (percentiles t) (PERCENTILES this).
Proof.
  unfold summarise. by destruct (rollingPercentilesEnabled this), t.
Qed.

Lemma summarise_latencyMean this t :
  latencyMean (summarise this t)
  = if rollingPercentilesEnabled this
    then (if decide (length (sort (latencyTimes t)) = 0%nat) then of_Z 0
          else mean (sort (latencyTimes t)))
    else of_Z (-1).
Proof.
  unfold summarise. by destruct (rollingPercentilesEnabled this), t.
Qed.

(** The table a [forEach] over the quantiles leaves in an object. *)
Lemma lookup_foldl_insert (f : number → Z) qs : ∀ (m : gmap number Z) p,
  foldl (λ ps q, <[q := f q]> ps) m qs !! p
  = if decide (p ∈ qs) then Some (f p) else m !! p.
Proof.
  induction qs as [|q qs IH]; intros m p; cbn [foldl].
  - by rewrite decide_False by set_solver.
  - rewrite IH. destruct (decide (p ∈ qs)).
    + by rewrite decide_True by set_solver.
    + destruct (decide (p = q)) as [->|Hne].
      * rewrite decide_True by set_solver. apply lookup_insert_eq.
      * rewrite decide_False by (by intros [?|?]%elem_of_cons).
        by apply lookup_insert_ne.
Qed.

(** What [stats] returns in a state of the invariant. *)
Lemma stats_Inv this b0 N k bs h :
  Inv this b0 N k bs h →
  stats this h =
    Ok (summarise this
          (foldl (accumulate (rollingPercentilesEnabled this)) empty_bucket bs), h).
Proof.
  intros [Hw _ Hc]. rewrite (stats_ok _ _ _ Hw) by by eapply points_to_defined.
  by rewrite (points_to_window_buckets _ _ _ Hc).
Qed.

(** ** Lemmas for the claims *)

Lemma pooled_nil bs : Forall (λ b, latencyTimes b = []) bs → pooled bs = [].
Proof.
  unfold pooled. induction 1 as [|b bs Hb _ IH]; [done|].
  rewrite fmap_cons. cbn [concat]. by rewrite Hb, IH.
Qed.

Lemma or_zero_default v : or_zero v = default 0 v.
Proof. destruct v as [x|]; [apply or_zero_Some|done]. Qed.

Lemma model_step_flags e bs :
  isCircuitBreakerOpen <$> model_step e bs
  = flag_step e (isCircuitBreakerOpen <$> bs).
Proof.
  destruct e as [| | |property latencyRunTime| |]; simpl; try done.
  - by rewrite fmap_take, length_fmap.
  - destruct bs as [|b bs]; [done|]. simpl. f_equal.
    unfold incremented. by destruct b, property.
  - destruct bs as [|b bs]; [done|]. simpl. f_equal. by destruct b.
  - destruct bs as [|b bs]; [done|]. simpl. f_equal. by destruct b.
Qed.

Lemma model_run_flags tr : ∀ bs,
  isCircuitBreakerOpen <$> model_run tr bs
  = flag_run tr (isCircuitBreakerOpen <$> bs).
Proof.
  induction tr as [|e tr IH]; intros bs; [done|].
  simpl. by rewrite IH, model_step_flags.
Qed.

Lemma flag_run_head tr : ∀ f fs,
  ∃ fs', flag_run tr (f :: fs) = last_flag tr f :: fs'.
Proof.
  induction tr as [|e tr IH]; intros f fs; [by eexists|].
  destruct e; simpl; apply IH.
Qed.

Lemma not_finite_over_zero x : is_finite (floor (div x (of_Z 0))) = false.
Proof. by destruct x as [[]|[]| |[] m e]. Qed.

(** * The claims *)

(** C1. Percentiles are nearest-rank.  On a non-empty array the
    percentile for quantile [0] is the first element; for a quantile
    [p > 0] it is the element at index [ceil(p * length) - 1], for every
    such index inside the array, and for each configured quantile that
    index is inside the array (shown for lengths below [2^52]; an array
    has fewer than [2^32] elements).  [stats] calls it, for each configured
    quantile, on the pooled latencies sorted in ascending order.  On
    [[10, 20, 30, 40]]: 10 for 0.0, 20 for 0.5 and 40 for 1.0, also
    through [stats] when the four latencies come from two slices. *)
Theorem percentile_nearest_rank :
  (∀ p x rest, is_zero p = true → calculatePercentile p (x :: rest) = x) ∧
  (∀ p arr k,
     is_zero p = false →
     ceil (mul p (of_Z (Z.of_nat (length arr)))) = Some k →
     1 ≤ k ≤ Z.of_nat (length arr) →
     ∃ x, arr !! Z.to_nat (k - 1) = Some x ∧ calculatePercentile p arr = x) ∧
  (∀ p arr,
     p ∈ percentile_table → is_zero p = false →
     arr ≠ [] → Z.of_nat (length arr) < 2 ^ 52 →
     ∃ k x,
       ceil (mul p (of_Z (Z.of_nat (length arr)))) = Some k ∧
       1 ≤ k ≤ Z.of_nat (length arr) ∧
       arr !! Z.to_nat (k - 1) = Some x ∧ calculatePercentile p arr = x) ∧
  (∀ options h0 this h tr h',
     constructor options h0 = Ok (this, h) →
     run this tr h = Ok (tt, h') →
     rollingPercentilesEnabled this = true →
     ∃ s w,
       stats this h' = Ok (s, h') ∧ arrays h' !! WINDOW this = Some w ∧
       Sorted Z.le (latencyTimes (totals s)) ∧
       latencyTimes (totals s) ≡ₚ pooled (window_buckets h' w) ∧
       ∀ p, p ∈ PERCENTILES this →
         percentiles (totals s) !! p
         = Some (calculatePercentile p (latencyTimes (totals s)))) ∧
  (calculatePercentile (of_Z 0) [10; 20; 30; 40] = 10 ∧
   calculatePercentile (lit 5 10) [10; 20; 30; 40] = 20 ∧
   calculatePercentile (of_Z 1) [10; 20; 30; 40] = 40) ∧
  (∃ this h h' s,
     constructor (Options.make 2 1000 true) empty_heap = Ok (this, h) ∧
     run this two_slices h = Ok (tt, h') ∧
     stats this h' = Ok (s, h') ∧
     latencyTimes (totals s) = [10; 20; 30; 40] ∧
     percentiles (totals s) !! of_Z 0 = Some 10 ∧
     percentiles (totals s) !! lit 5 10 = Some 20 ∧
     percentiles (totals s) !! of_Z 1 = Some 40).
Proof.
  split_and!.
  - apply calculatePercentile_zero.
  - apply calculatePercentile_rank.
  - intros p arr Hp Hz Harr Hlen.
    destruct (configured_rank_in_range p (Z.of_nat (length arr)) Hp Hz)
      as (k & Hk & Hr); [destruct arr; [done|simpl in *; lia]|].
    destruct (calculatePercentile_rank p arr k Hz Hk Hr) as (x & Hx & Hc).
    by exists k, x.
  - intros options h0 this h tr h' (_ & _ & _ & HI)%constructor_inv Hrun Hon.
    pose proof (run_Inv _ _ _ _ _ _ _ _ HI Hrun) as HI'.
    eexists _, _. split_and!; [by eapply stats_Inv|apply HI'|..].
    + rewrite summarise_latencyTimes, Hon. apply sort_Sorted.
    + rewrite summarise_latencyTimes, Hon, sort_Permutation.
      rewrite foldl_accumulate_latencyTimes. simpl.
      by rewrite (points_to_window_buckets _ _ _ (inv_contents _ _ _ _ _ _ HI')).
    + intros p Hp. rewrite summarise_percentiles, summarise_latencyTimes, Hon.
      by rewrite (lookup_foldl_insert (λ p, calculatePercentile p _)), decide_True.
  - by vm_compute.
  - by vm_compute.
  - by vm_compute.
  - eexists _, _, _, _. split_and!; [reflexivity..|by vm_compute| | |];
      by vm_compute.
Qed.

(** C2 fails: the records in the returned array are the internal ones.
    After [status.window[0].successes = 7] the internal current bucket
    counts 7 successes. *)
Lemma window_copy_shares_records :
  ¬ window_copy_is_defensive (Options.make 1 1000 true) []
      (RecordUpdate 0 (set Property.successes 7)).
Proof.
  intros H. specialize (H _ _ _ _ _ _ eq_refl eq_refl eq_refl eq_refl).
  vm_compute in H. discriminate H.
Qed.

(** C2, amended.  [window] returns a new array holding the same
    references as the internal one.  Whatever the caller does to that
    array itself leaves the internal window, and every bucket, as they
    were.  The records are shared: a change made to the record at an
    index of the copy is made to the bucket at that index of the
    internal window. *)
Theorem window_copy_is_shallow (options : Options.t) (h0 : Heap) this h tr h1 :
  constructor options h0 = Ok (this, h) →
  run this tr h = Ok (tt, h1) →
  ∃ copy h2 w,
    window this h1 = Ok (copy, h2) ∧
    copy ≠ WINDOW this ∧ arrays h1 !! copy = None ∧
    arrays h1 !! WINDOW this = Some w ∧ arrays h2 !! copy = Some w ∧
    internal this h2 = internal this h1 ∧
    (∀ f, ∃ h3,
       mutate copy (ArrayUpdate f) h2 = Ok (tt, h3) ∧
       arrays h3 !! copy = Some (f w) ∧
       arrays h3 !! WINDOW this = Some w ∧ buckets h3 = buckets h1 ∧
       internal this h3 = internal this h1) ∧
    (∀ i r b f, w !! i = Some (Some r) → buckets h1 !! r = Some b →
       ∃ h3,
         mutate copy (RecordUpdate i f) h2 = Ok (tt, h3) ∧
         arrays h3 !! WINDOW this = Some w ∧
         buckets h3 = <[r := f b]> (buckets h1)).
Proof.
  intros (_ & _ & _ & HI)%constructor_inv Hrun.
  pose proof (run_Inv _ _ _ _ _ _ _ _ HI Hrun) as [Hw _ _].
  pose proof (lookup_lt_Some _ _ _ Hw) as Hlt.
  eexists _, _, _. split_and!; [by apply window_ok|lia| |done|..].
  - by apply lookup_ge_None_2.
  - simpl. by apply list_lookup_middle.
  - unfold internal. simpl. by rewrite lookup_app_l, Hw.
  - intros f. eexists. unfold mutate, bind, read_array, write_array. simpl.
    rewrite list_lookup_middle by done. simpl.
    rewrite list_lookup_middle by done.
    split_and!; [done|simpl..].
    + apply list_lookup_insert_eq. rewrite length_app. simpl. lia.
    + rewrite list_lookup_insert_ne by lia. by apply lookup_app_l_Some.
    + done.
    + unfold internal. simpl.
      rewrite list_lookup_insert_ne by lia. by rewrite lookup_app_l, Hw.
  - intros i r b f Hi Hr. eexists.
    unfold mutate, bind, read_array, modify_bucket. simpl.
    rewrite list_lookup_middle by done. rewrite Hi. simpl. rewrite Hr.
    split_and!; [done|simpl|done]. by apply lookup_app_l_Some.
Qed.

(** C3. With percentile tracking disabled, every read of [stats], after
    any run of events, has [latencyMean == -1] and [-1] at every entry of
    its percentile table. *)
Theorem disabled_percentiles_are_minus_one (options : Options.t) (h0 : Heap)
    this h tr h' :
  constructor options h0 = Ok (this, h) →
  run this tr h = Ok (tt, h') →
  rollingPercentilesEnabled this = false →
  ∃ s, stats this h' = Ok (s, h') ∧
       latencyMean s = of_Z (-1) ∧
       (∀ p, p ∈ PERCENTILES this → percentiles (totals s) !! p = Some (-1)) ∧
       (∀ p v, percentiles (totals s) !! p = Some v → v = -1).
Proof.
  intros (_ & _ & _ & HI)%constructor_inv Hrun Hoff.
  pose proof (run_Inv _ _ _ _ _ _ _ _ HI Hrun) as HI'.
  eexists. split; [by eapply stats_Inv|].
  rewrite summarise_latencyMean, summarise_percentiles, Hoff.
  rewrite foldl_accumulate_percentiles. split_and!; [done| |].
  - intros p Hp. by rewrite (lookup_foldl_insert (λ _, -1)), decide_True.
  - intros p v. rewrite (lookup_foldl_insert (λ _, -1)).
    case_decide; [congruence|].
    unfold empty_bucket. cbn [percentiles]. by rewrite lookup_empty.
Qed.

(** C4. With percentile tracking enabled and no latency in any bucket
    of the window, a read of [stats] has [latencyMean == 0] and [0] at
    every entry of its percentile table. *)
Theorem empty_pool_is_zero (options : Options.t) (h0 : Heap) this h tr h' :
  constructor options h0 = Ok (this, h) →
  run this tr h = Ok (tt, h') →
  rollingPercentilesEnabled this = true →
  (∀ w r b, arrays h' !! WINDOW this = Some w → Some r ∈ w →
            buckets h' !! r = Some b → latencyTimes b = []) →
  ∃ s, stats this h' = Ok (s, h') ∧
       latencyTimes (totals s) = [] ∧
       latencyMean s = of_Z 0 ∧
       (∀ p, p ∈ PERCENTILES this → percentiles (totals s) !! p = Some 0) ∧
       (∀ p v, percentiles (totals s) !! p = Some v → v = 0).
Proof.
  intros (_ & _ & _ & HI)%constructor_inv Hrun Hon Hempty.
  pose proof (run_Inv _ _ _ _ _ _ _ _ HI Hrun) as HI'.
  set (bs := model_run tr _) in HI'.
  assert (pooled bs = []) as Hpool.
  { apply pooled_nil. destruct HI' as [Hw _ Hc].
    assert (∀ r b, r ∈ shape (length (buckets h0))
                         (Z.to_nat (Options.rollingCountBuckets options))
                         (rotations tr + 0) →
                   buckets h' !! r = Some b → latencyTimes b = []) as Hall.
    { intros r b Hin. apply (Hempty _ _ _ Hw). by apply list_elem_of_fmap_2. }
    clear Hw Hempty.
    induction Hc as [|r b refs bs' Hr _ IH]; constructor.
    - apply (Hall r); [by left|done].
    - apply IH. intros r' b' Hin. apply Hall. by right. }
  eexists. split; [by eapply stats_Inv|].
  rewrite summarise_latencyTimes, summarise_latencyMean, summarise_percentiles, Hon.
  rewrite foldl_accumulate_percentiles, foldl_accumulate_latencyTimes, Hpool.
  simpl. split_and!; [done..| |].
  - intros p Hp.
    rewrite (lookup_foldl_insert (λ p, calculatePercentile p [])), decide_True by done.
    by rewrite calculatePercentile_nil.
  - intros p v. rewrite (lookup_foldl_insert (λ p, calculatePercentile p [])).
    case_decide; [rewrite calculatePercentile_nil; congruence|].
    unfold empty_bucket. cbn [percentiles]. by rewrite lookup_empty.
Qed.

(** C5. For every positive [rollingCountBuckets = N] the window holds
    exactly [N] slots right after construction, each one a new empty
    bucket of its own (none [undefined]); and after every run of events,
    rotations included, it still holds exactly [N] slots, all of them
    buckets.  Construction succeeds for every [N] an array can have. *)
Theorem window_length_invariant (options : Options.t) (h0 : Heap) :
  let n := Options.rollingCountBuckets options in
  0 < n →
  (n < 2 ^ 32 → ∃ this h, constructor options h0 = Ok (this, h)) ∧
  ∀ this h, constructor options h0 = Ok (this, h) →
    (∃ w, arrays h !! WINDOW this = Some w ∧ Z.of_nat (length w) = n ∧
       ∀ i, Z.of_nat i < n →
         w !! i = Some (Some (length (buckets h0) + i)%nat) ∧
         buckets h0 !! (length (buckets h0) + i)%nat = None ∧
         buckets h !! (length (buckets h0) + i)%nat = Some empty_bucket) ∧
    ∀ tr, ∃ h' w',
      run this tr h = Ok (tt, h') ∧
      arrays h' !! WINDOW this = Some w' ∧ Z.of_nat (length w') = n ∧
      defined h' w'.
Proof.
  intros n Hn. split.
  { intros Hlt. eexists _, _. apply constructor_ok. fold n. lia. }
  intros this h (Hr & -> & -> & HI)%constructor_inv. fold n in Hr, HI. split.
  - eexists. split; [apply HI|]. rewrite length_fmap, shape_length.
    split; [lia|]. intros i Hi. split_and!.
    + rewrite list_lookup_fmap, shape_0, lookup_seq_lt by lia. done.
    + apply lookup_ge_None_2. lia.
    + simpl. rewrite lookup_app_r by lia.
      apply lookup_replicate_2. lia.
  - intros tr. assert (0 < Z.to_nat n)%nat as HN by lia.
    destruct (run_ok _ _ _ _ _ _ tr HN HI) as (h' & Hrun & HI').
    eexists h', _. split_and!; [done|apply HI'| |].
    + rewrite length_fmap, shape_length. lia.
    + eapply points_to_defined, HI'.
Qed.

(** C6. Each rotation drops the last slot of the window and puts a new
    empty bucket in front.  So the bucket that was current at
    construction sits at position [k] after [k] rotations (whatever
    other events come in between) as long as [k < N], and is no longer in
    the window once [k >= N]. *)
Theorem rotation_ages_buckets (options : Options.t) (h0 : Heap) this h :
  let n := Options.rollingCountBuckets options in
  0 < n →
  constructor options h0 = Ok (this, h) →
  ∃ r0 w,
    arrays h !! WINDOW this = Some w ∧ w !! 0%nat = Some (Some r0) ∧
    ∀ tr, ∃ h' w',
      run this tr h = Ok (tt, h') ∧ arrays h' !! WINDOW this = Some w' ∧
      (Z.of_nat (rotations tr) < n → w' !! rotations tr = Some (Some r0)) ∧
      (n ≤ Z.of_nat (rotations tr) → Some r0 ∉ w') ∧
      ∃ h'' b,
        nextBucket (WINDOW this) h' = Ok (tt, h'') ∧
        arrays h'' !! WINDOW this = Some (Some b :: take (length w' - 1) w') ∧
        (Some b ∉ w') ∧ buckets h' !! b = None ∧
        buckets h'' !! b = Some empty_bucket.
Proof.
  intros n Hn (Hr & -> & -> & HI)%constructor_inv. fold n in Hr, HI.
  set (b0 := length (buckets h0)) in *. set (N := Z.to_nat n) in *.
  assert (0 < N)%nat as HN by lia.
  exists b0, (Some <$> shape b0 N 0). split_and!; [apply HI| |].
  { rewrite list_lookup_fmap, shape_lookup by done.
    rewrite decide_True, decide_False by lia. simpl. do 2 f_equal. lia. }
  intros tr. destruct (run_ok _ _ _ _ _ _ tr HN HI) as (h' & Hrun & HI').
  rewrite Nat.add_0_r in HI'. set (k := rotations tr) in *.
  destruct HI' as [Hw Hs Hc].
  exists h', (Some <$> shape b0 N k). split_and!; [done..| | |].
  - intros Hk. rewrite list_lookup_fmap, shape_lookup by done.
    rewrite decide_True, decide_False by lia. simpl. do 2 f_equal. lia.
  - intros Hk [r [[= <-] [i Hi]%list_elem_of_lookup_1]]%list_elem_of_fmap.
    rewrite shape_lookup in Hi by done.
    repeat case_decide; simplify_eq; lia.
  - eexists _, (length (buckets h')).
    split_and!; [by apply nextBucket_ok| | | |].
    + simpl. by rewrite list_lookup_insert_eq by by eapply lookup_lt_Some.
    + intros [r [[= <-] Hin%shape_bound]]%list_elem_of_fmap. lia.
    + by apply lookup_ge_None_2.
    + simpl. by apply list_lookup_middle.
Qed.

(** C7. On a newly built window, [increment('successes', x)] followed
    by a read of [stats] gives [stats.successes == 1], and [x] among the
    pooled latencies when percentiles are enabled. *)
Theorem increment_then_stats (options : Options.t) (h0 : Heap) (x : Z) :
  let n := Options.rollingCountBuckets options in
  0 < n < 2 ^ 32 →
  ∃ this h h1 s,
    constructor options h0 = Ok (this, h) ∧
    increment this Property.successes (Some x) h = Ok (tt, h1) ∧
    stats this h1 = Ok (s, h1) ∧
    successes (totals s) = 1 ∧
    (Options.rollingPercentilesEnabled options = true →
     x ∈ latencyTimes (totals s)).
Proof.
  intros n Hn.
  pose proof (constructor_ok options h0) as Hc. fold n in Hc.
  specialize (Hc ltac:(lia)).
  apply constructor_inv in Hc as Hinv. destruct Hinv as (_ & _ & _ & HI).
  fold n in HI.
  pose proof (step_spec _ _ _ _ _ _ (Increment Property.successes (Some x)) HI) as Hs.
  simpl step in Hs.
  destruct (increment _ _ _ _) as [[[] h1]|err] eqn:Hinc.
  2:{ destruct Hs as [_ Hs]. apply (f_equal length) in Hs.
      rewrite length_replicate in Hs. simpl in Hs. lia. }
  eexists _, _, h1, _. split_and!; [exact Hc|exact Hinc|by eapply stats_Inv| |].
  - change (successes ?b) with (get Property.successes b).
    rewrite summarise_get, foldl_accumulate_get.
    destruct (Z.to_nat n) as [|m] eqn:Hm; [lia|]. simpl.
    clear. induction m as [|m IH]; simpl in *; lia.
  - intros He. rewrite summarise_latencyTimes, foldl_accumulate_latencyTimes.
    simpl. rewrite He. rewrite sort_Permutation.
    destruct (Z.to_nat n) as [|m] eqn:Hm; [lia|]. simpl.
    unfold pooled, incremented. cbn -[or_zero]. rewrite or_zero_Some.
    apply elem_of_cons. by left.
Qed.

(** C8. In any state a window of [N > 0] buckets can reach, [increment]
    adds one to the named counter of the current bucket and, for
    [successes], [failures] and [timeouts], appends the latency ([0] when
    none is given) to that bucket's [latencyTimes], whether or not
    percentiles are enabled; for the six other counters [latencyTimes]
    stays as it is.  Nothing else in the store changes. *)
Theorem increment_appends_latency (options : Options.t) (h0 : Heap) this h tr h1
    (property : Property.t) (latencyRunTime : option Z) :
  0 < Options.rollingCountBuckets options →
  constructor options h0 = Ok (this, h) →
  run this tr h = Ok (tt, h1) →
  ∃ r w b h2 b',
    arrays h1 !! WINDOW this = Some (Some r :: w) ∧
    buckets h1 !! r = Some b ∧
    increment this property latencyRunTime h1 = Ok (tt, h2) ∧
    arrays h2 = arrays h1 ∧ buckets h2 = <[r := b']> (buckets h1) ∧
    get property b' = get property b + 1 ∧
    (property = Property.successes ∨ property = Property.failures ∨
     property = Property.timeouts →
     latencyTimes b' = latencyTimes b ++ [default 0 latencyRunTime]) ∧
    (property ≠ Property.successes → property ≠ Property.failures →
     property ≠ Property.timeouts →
     latencyTimes b' = latencyTimes b).
Proof.
  intros Hn (_ & _ & _ & HI)%constructor_inv Hrun.
  pose proof (run_Inv _ _ _ _ _ _ _ _ HI Hrun) as [Hw Hs Hc].
  pose proof (shape_length (length (buckets h0))
                (Z.to_nat (Options.rollingCountBuckets options))
                (rotations tr + 0)) as Hlen.
  destruct (shape _ _ _) as [|r rest]; [simpl in Hlen; lia|].
  apply Forall2_cons_inv_l in Hc as (b & bs' & Hr & _ & _).
  exists r, (Some <$> rest), b. eexists _, _.
  split_and!; [done|done|by eapply increment_ok|done|done|..].
  - unfold incremented. destruct b, property; done.
  - unfold incremented. rewrite or_zero_default.
    intros [->| [->| ->]]; by destruct b.
  - unfold incremented. intros. destruct b, property; done.
Qed.

(** C9 fails: [bucket()] gives its object no [isCircuitBreakerOpen]
    property, so the field of a new bucket reads [undefined], right after
    construction and again after a rotation that follows an [open()]. *)
Lemma new_bucket_has_no_flag :
  ¬ every_flag_is_boolean (Options.make 1 1000 true) [] ∧
  ¬ every_flag_is_boolean (Options.make 1 1000 true) [Open; Rotate].
Proof.
  split; intros H.
  - destruct (H _ _ _ [Some 0%nat] 0%nat empty_bucket eq_refl eq_refl eq_refl)
      as [v Hv]; [by left|done|done].
  - destruct (H _ _ _ [Some 1%nat] 1%nat empty_bucket eq_refl eq_refl eq_refl)
      as [v Hv]; [by left|done|done].
Qed.

(** C9, amended.  A bucket has no [isCircuitBreakerOpen] property when
    it is created, at construction and at each rotation; the field is the
    boolean written by the last [open()] ([true]) or [close()] ([false])
    made while the bucket was current, and [increment] does not touch
    it.  So along any run the fields of the window are those of
    [flag_run], all absent at the start, and the field of the current
    bucket is absent unless an [open()] or [close()] came after the last
    rotation. *)
Theorem flag_is_absent_until_written (options : Options.t) (h0 : Heap) this h :
  let n := Options.rollingCountBuckets options in
  0 < n →
  constructor options h0 = Ok (this, h) →
  ∀ tr, ∃ h' r w b,
    run this tr h = Ok (tt, h') ∧
    arrays h' !! WINDOW this = Some (Some r :: w) ∧
    buckets h' !! r = Some b ∧
    isCircuitBreakerOpen b = last_flag tr None ∧
    isCircuitBreakerOpen <$> window_buckets h' (Some r :: w)
      = flag_run tr (replicate (Z.to_nat n) None).
Proof.
  intros n Hn (_ & _ & _ & HI)%constructor_inv tr. fold n in HI.
  assert (0 < Z.to_nat n)%nat as HN by lia.
  destruct (run_ok _ _ _ _ _ _ tr HN HI) as (h' & Hrun & [Hw Hs Hc]).
  assert (isCircuitBreakerOpen <$> model_run tr (replicate (Z.to_nat n) empty_bucket)
          = flag_run tr (replicate (Z.to_nat n) None)) as Hflags
    by by rewrite model_run_flags, fmap_replicate.
  rewrite <- (points_to_window_buckets _ _ _ Hc) in Hflags.
  destruct (Z.to_nat n) as [|m] eqn:Hm; [lia|].
  destruct (flag_run_head tr None (replicate m None)) as [fs' Hhead].
  simpl replicate in Hflags. rewrite Hhead in Hflags.
  destruct (shape _ _ _) as [|r rest].
  { by simpl in Hflags. }
  apply Forall2_cons_inv_l in Hc as (b & bs' & Hr & Hc & Hbs).
  exists h', r, (Some <$> rest), b. split_and!; [done..| |].
  - rewrite fmap_cons in Hflags. unfold window_buckets in Hflags.
    simpl in Hflags. rewrite Hr in Hflags. simpl in Hflags. congruence.
  - simpl replicate. by rewrite Hhead.
Qed.

(** C10 fails: the constructor checks neither option.  Zero buckets,
    and a zero or negative timeout, are accepted. *)
Lemma misconfiguration_is_accepted :
  ¬ misconfiguration_is_rejected (Options.make 0 1000 true) ∧
  ¬ misconfiguration_is_rejected (Options.make 10 0 true) ∧
  ¬ misconfiguration_is_rejected (Options.make 10 (-5) true).
Proof.
  split_and!; intros H; destruct H as [e He]; simpl; try lia; discriminate He.
Qed.

(** C10, amended.  The constructor validates nothing itself.  It fails,
    with the [RangeError] of [new Array], exactly when
    [rollingCountBuckets] is negative or above [2^32 - 1]; otherwise it
    returns, whatever [rollingCountTimeout] is.  With zero buckets it
    returns a window of length zero, and the interval handed to the
    timers is not a finite number. *)
Theorem constructor_rejects_only_bad_lengths (options : Options.t) (h0 : Heap) :
  let n := Options.rollingCountBuckets options in
  ((∃ e, constructor options h0 = Throw e) ↔ n < 0 ∨ 2 ^ 32 ≤ n) ∧
  (n < 0 ∨ 2 ^ 32 ≤ n ↔ constructor options h0 = Throw RangeError) ∧
  (0 ≤ n < 2 ^ 32 ↔
   ∃ this h w, constructor options h0 = Ok (this, h) ∧
               arrays h !! WINDOW this = Some w ∧ Z.of_nat (length w) = n) ∧
  (n = 0 →
   ∃ this h, constructor options h0 = Ok (this, h) ∧
             arrays h !! WINDOW this = Some [] ∧
             is_finite (bucketInterval this) = false).
Proof.
  intros n.
  assert (n < 0 ∨ 2 ^ 32 ≤ n → constructor options h0 = Throw RangeError) as Hbad
    by apply constructor_RangeError.
  assert (0 ≤ n < 2 ^ 32 →
          ∃ this h w, constructor options h0 = Ok (this, h) ∧
                      arrays h !! WINDOW this = Some w ∧ Z.of_nat (length w) = n)
    as Hgood.
  { intros Hn. eexists _, _, _. split; [by apply constructor_ok|]. simpl.
    split; [by apply list_lookup_middle|].
    rewrite length_fmap, length_seq. fold n. lia. }
  split_and!.
  - split.
    + intros [e He]. destruct (decide (0 ≤ n < 2 ^ 32)) as [Hn|Hn]; [|lia].
      destruct (Hgood Hn) as (? & ? & ? & Hc & _). congruence.
    + intros Hn. eexists. by apply Hbad.
  - split; [done|]. intros He.
    destruct (decide (0 ≤ n < 2 ^ 32)) as [Hn|Hn]; [|lia].
    destruct (Hgood Hn) as (? & ? & ? & Hc & _). congruence.
  - split; [done|]. intros (this & h & w & Hc & _).
    destruct (decide (0 ≤ n < 2 ^ 32)) as [Hn|Hn]; [done|].
    rewrite Hbad in Hc by lia. done.
  - intros Hn. unfold n in Hn.
    eexists _, _. split; [apply constructor_ok; lia|].
    simpl. rewrite Hn. split; [by apply list_lookup_middle|].
    apply not_finite_over_zero.
Qed.

(** * The theorems at concrete inputs *)

(** C1 at the quantile 0.75 of [[10, 20, 30, 40]]: rank 3, value 30. *)
Lemma percentile_nearest_rank_witness :
  is_zero (lit 75 100) = false ∧
  ceil (mul (lit 75 100) (of_Z (Z.of_nat (length [10; 20; 30; 40])))) = Some 3 ∧
  1 ≤ 3 ≤ Z.of_nat (length [10; 20; 30; 40]) ∧
  ∃ x, [10; 20; 30; 40] !! Z.to_nat (3 - 1) = Some x ∧
       calculatePercentile (lit 75 100) [10; 20; 30; 40] = x.
Proof.
  split_and!; [reflexivity|reflexivity|simpl; lia|simpl; lia|].
  destruct percentile_nearest_rank as (_ & Hrank & _).
  apply (Hrank (lit 75 100) [10; 20; 30; 40] 3);
    [reflexivity|reflexivity|simpl; lia].
Defined.

(** C2 (amended) after one increment and one rotation of a window of
    two buckets. *)
Lemma window_copy_is_shallow_witness :
  ∃ this h h1,
    constructor (Options.make 2 1000 true) empty_heap = Ok (this, h) ∧
    run this [Increment Property.fires None; Rotate] h = Ok (tt, h1) ∧
    ∃ copy h2 w,
      window this h1 = Ok (copy, h2) ∧ copy ≠ WINDOW this ∧
      arrays h1 !! WINDOW this = Some w ∧ arrays h2 !! copy = Some w ∧
      ∃ h3, mutate copy (ArrayUpdate (λ _, [])) h2 = Ok (tt, h3) ∧
            arrays h3 !! WINDOW this = Some w ∧ buckets h3 = buckets h1.
Proof.
  eexists _, _, _. split; [reflexivity|]. split; [reflexivity|].
  destruct (window_copy_is_shallow (Options.make 2 1000 true) empty_heap
              _ _ [Increment Property.fires None; Rotate] _ eq_refl eq_refl)
    as (copy & h2 & w & Hwin & Hne & _ & Hw & Hcopy & _ & Harr & _).
  destruct (Harr (λ _, [])) as (h3 & Hmut & _ & Hw3 & Hb3 & _).
  exists copy, h2, w. split_and!; [done..|]. by exists h3.
Defined.

(** C3 with percentiles disabled, after two recorded latencies. *)
Lemma disabled_percentiles_are_minus_one_witness :
  ∃ this h h',
    constructor (Options.make 2 1000 false) empty_heap = Ok (this, h) ∧
    run this [Increment Property.successes (Some 30); Rotate;
              Increment Property.timeouts (Some 7)] h = Ok (tt, h') ∧
    rollingPercentilesEnabled this = false ∧
    ∃ s, stats this h' = Ok (s, h') ∧ latencyMean s = of_Z (-1) ∧
         (∀ p, p ∈ PERCENTILES this → percentiles (totals s) !! p = Some (-1)) ∧
         (∀ p v, percentiles (totals s) !! p = Some v → v = -1).
Proof.
  eexists _, _, _. split_and!; [reflexivity..|].
  eapply (disabled_percentiles_are_minus_one (Options.make 2 1000 false)
            empty_heap _ _
            [Increment Property.successes (Some 30); Rotate;
             Increment Property.timeouts (Some 7)]); reflexivity.
Defined.

(** C4 with percentiles enabled, after events that record no latency. *)
Lemma empty_pool_is_zero_witness :
  ∃ this h h',
    constructor (Options.make 2 1000 true) empty_heap = Ok (this, h) ∧
    run this [Increment Property.fires None; Rotate;
              Increment Property.rejects None] h = Ok (tt, h') ∧
    rollingPercentilesEnabled this = true ∧
    (∀ w r b, arrays h' !! WINDOW this = Some w → Some r ∈ w →
              buckets h' !! r = Some b → latencyTimes b = []) ∧
    ∃ s, stats this h' = Ok (s, h') ∧ latencyTimes (totals s) = [] ∧
         latencyMean s = of_Z 0 ∧
         (∀ p, p ∈ PERCENTILES this → percentiles (totals s) !! p = Some 0) ∧
         (∀ p v, percentiles (totals s) !! p = Some v → v = 0).
Proof.
  eexists _, _, _. split; [reflexivity|]. split; [reflexivity|].
  split; [reflexivity|].
  assert (∀ w r b,
            arrays (mkHeap [[Some 2; Some 0]]%nat
                      [incremented Property.fires None empty_bucket;
                       empty_bucket;
                       incremented Property.rejects None empty_bucket])
              !! 0%nat = Some w →
            Some r ∈ w →
            buckets (mkHeap [[Some 2; Some 0]]%nat
                       [incremented Property.fires None empty_bucket;
                        empty_bucket;
                        incremented Property.rejects None empty_bucket])
              !! r = Some b →
            latencyTimes b = []) as Hempty.
  { intros w r b [= <-] Hin Hb.
    apply elem_of_cons in Hin as [[= ->]|Hin];
      [|apply elem_of_cons in Hin as [[= ->]|Hin]].
    - by injection Hb as <-.
    - by injection Hb as <-.
    - by apply elem_of_nil in Hin. }
  split; [exact Hempty|].
  eapply (empty_pool_is_zero (Options.make 2 1000 true) empty_heap _ _
            [Increment Property.fires None; Rotate;
             Increment Property.rejects None]);
    [reflexivity|reflexivity|reflexivity|exact Hempty].
Defined.

(** C5 for three buckets, two rotations later. *)
Lemma window_length_invariant_witness :
  0 < Options.rollingCountBuckets (Options.make 3 1000 true) ∧
  ∃ this h h' w',
    constructor (Options.make 3 1000 true) empty_heap = Ok (this, h) ∧
    run this [Rotate; Open; Rotate] h = Ok (tt, h') ∧
    arrays h' !! WINDOW this = Some w' ∧ Z.of_nat (length w') = 3.
Proof.
  split; [simpl; lia|].
  destruct (window_length_invariant (Options.make 3 1000 true) empty_heap)
    as [Hsome Hall]; [simpl; lia|].
  destruct Hsome as (this & h & Hc); [simpl; lia|].
  destruct (Hall this h Hc) as [_ Hrun].
  destruct (Hrun [Rotate; Open; Rotate]) as (h' & w' & Hr & Hw & Hlen & _).
  by exists this, h, h', w'.
Defined.

(** C6 for three buckets: after two rotations the first current bucket
    is at index 2. *)
Lemma rotation_ages_buckets_witness :
  0 < Options.rollingCountBuckets (Options.make 3 1000 true) ∧
  ∃ this h r0 h' w',
    constructor (Options.make 3 1000 true) empty_heap = Ok (this, h) ∧
    run this [Rotate; Close; Rotate] h = Ok (tt, h') ∧
    arrays h' !! WINDOW this = Some w' ∧ w' !! 2%nat = Some (Some r0).
Proof.
  split; [simpl; lia|].
  eexists _, _. 
  destruct (rotation_ages_buckets (Options.make 3 1000 true) empty_heap
              _ _ ltac:(simpl; lia) eq_refl) as (r0 & w & _ & _ & Hall).
  destruct (Hall [Rotate; Close; Rotate]) as (h' & w' & Hr & Hw & Hlt & _).
  exists r0, h', w'. split_and!; [reflexivity|exact Hr|exact Hw|].
  apply Hlt. simpl. lia.
Defined.

(** C7 for a latency of 25 ms. *)
Lemma increment_then_stats_witness :
  0 < Options.rollingCountBuckets (Options.make 4 1000 true) < 2 ^ 32 ∧
  ∃ this h h1 s,
    constructor (Options.make 4 1000 true) empty_heap = Ok (this, h) ∧
    increment this Property.successes (Some 25) h = Ok (tt, h1) ∧
    stats this h1 = Ok (s, h1) ∧ successes (totals s) = 1 ∧
    25 ∈ latencyTimes (totals s).
Proof.
  split; [simpl; lia|].
  destruct (increment_then_stats (Options.make 4 1000 true) empty_heap 25)
    as (this & h & h1 & s & Hc & Hi & Hs & Hone & Hin); [simpl; lia|].
  exists this, h, h1, s. split_and!; [done..|]. by apply Hin.
Defined.

(** C8 with percentiles disabled: the latency is appended all the same. *)
Lemma increment_appends_latency_witness :
  0 < Options.rollingCountBuckets (Options.make 2 1000 false) ∧
  ∃ this h h1 r b h2 b',
    constructor (Options.make 2 1000 false) empty_heap = Ok (this, h) ∧
    run this [Increment Property.failures (Some 5); Open] h = Ok (tt, h1) ∧
    rollingPercentilesEnabled this = false ∧
    buckets h1 !! r = Some b ∧
    increment this Property.timeouts None h1 = Ok (tt, h2) ∧
    buckets h2 = <[r := b']> (buckets h1) ∧
    latencyTimes b' = latencyTimes b ++ [0].
Proof.
  split; [simpl; lia|].
  eexists _, _, _.
  destruct (increment_appends_latency (Options.make 2 1000 false) empty_heap
              _ _ [Increment Property.failures (Some 5); Open] _
              Property.timeouts None ltac:(simpl; lia) eq_refl eq_refl)
    as (r & w & b & h2 & b' & _ & Hb & Hi & _ & Hbs & _ & Happ & _).
  exists r, b, h2, b'. split_and!; [reflexivity..|exact Hb|exact Hi|exact Hbs|].
  apply Happ. by right; right.
Defined.

(** C9 (amended): the current bucket after [open()] and a rotation. *)
Lemma flag_is_absent_until_written_witness :
  0 < Options.rollingCountBuckets (Options.make 2 1000 true) ∧
  ∃ this h h' r w b,
    constructor (Options.make 2 1000 true) empty_heap = Ok (this, h) ∧
    run this [Open; Rotate] h = Ok (tt, h') ∧
    arrays h' !! WINDOW this = Some (Some r :: w) ∧
    buckets h' !! r = Some b ∧ isCircuitBreakerOpen b = None.
Proof.
  split; [simpl; lia|].
  eexists _, _.
  destruct (flag_is_absent_until_written (Options.make 2 1000 true) empty_heap
              _ _ ltac:(simpl; lia) eq_refl [Open; Rotate])
    as (h' & r & w & b & Hr & Hw & Hb & Hflag & _).
  exists h', r, w, b. split_and!; [reflexivity|exact Hr|exact Hw|exact Hb|exact Hflag].
Defined.

(** C10 (amended) for zero buckets. *)
Lemma constructor_rejects_only_bad_lengths_witness :
  Options.rollingCountBuckets (Options.make 0 1000 true) = 0 ∧
  ∃ this h,
    constructor (Options.make 0 1000 true) empty_heap = Ok (this, h) ∧
    arrays h !! WINDOW this = Some [] ∧
    is_finite (bucketInterval this) = false.
Proof.
  split; [reflexivity|].
  destruct (constructor_rejects_only_bad_lengths (Options.make 0 1000 true)
              empty_heap) as (_ & _ & _ & Hzero).
  by apply Hzero.
Defined.

(** * Further properties *)

(** ** What [stats] returns after a run *)

Lemma model_step_length e bs :
  bs ≠ [] → length (model_step e bs) = length bs.
Proof.
  intros Hbs. destruct e; simpl; rewrite ?length_alter; try done.
  rewrite length_take. destruct bs; [done|]. simpl. lia.
Qed.

Lemma total_cons property b bs :
  total property (b :: bs) = get property b + total property bs.
Proof. done. Qed.

Lemma get_incremented property p latencyRunTime b :
  get property (incremented p latencyRunTime b)
  = get property b + (if decide (p = property) then 1 else 0).
Proof.
  unfold incremented. destruct b, p, property; simpl; lia.
Qed.

Lemma get_set_flag property o b :
  get property (set_isCircuitBreakerOpen o b) = get property b.
Proof. by destruct b, property. Qed.

Lemma latencyTimes_incremented p latencyRunTime b :
  latencyTimes (incremented p latencyRunTime b)
  = latencyTimes b ++ if records_latency p then [default 0 latencyRunTime] else [].
Proof.
  unfold incremented. rewrite or_zero_default.
  destruct b, p; simpl; by rewrite ?app_nil_r.
Qed.

Lemma latencyTimes_set_flag o b :
  latencyTimes (set_isCircuitBreakerOpen o b) = latencyTimes b.
Proof. by destruct b. Qed.

Lemma count_cons_if property (c : Prop) `{Decision c} e evs :
  count property (if decide c then e :: evs else evs)
  = (if decide c then count property [e] else 0) + count property evs.
Proof. case_decide; [|done]. destruct e; simpl; lia. Qed.

Lemma get_empty_bucket property : get property empty_bucket = 0.
Proof. by destruct property. Qed.

(** The counts of a window after a run: what is left of the initial
    buckets, and the recent increments. *)
Lemma model_run_total property N tr : ∀ bs,
  (0 < N)%nat → length bs = N →
  total property (model_run tr bs)
  = total property (take (N - rotations tr) bs) + count property (recent N tr).
Proof.
  intros bs HN. revert bs.
  induction tr as [|e tr IH]; intros bs Hlen.
  - simpl. rewrite Nat.sub_0_r, take_ge by lia. lia.
  - assert (bs ≠ []) as Hne by (intros ->; simpl in *; lia).
    simpl model_run. rewrite IH by (by rewrite model_step_length).
    cbn [recent]. rewrite count_cons_if. set (r := rotations tr).
    destruct bs as [|b bs']; [done|]. simpl in Hlen.
    assert (∀ f, (∀ b, get property (f b) = get property b) →
                 total property (take (N - r) (alter f 0%nat (b :: bs')))
                 = total property (take (N - r) (b :: bs'))) as Hsame.
    { intros f Hf. simpl. destruct (N - r)%nat; [done|]. simpl.
      by rewrite !total_cons, Hf. }
    destruct e as [| | |p lat| |]; cbn [rotations model_step count]; fold r.
    + destruct (decide (r < N)%nat) as [Hr|Hr].
      * replace (N - r)%nat with (S (N - S r)) by lia. cbn [take length].
        rewrite total_cons, get_empty_bucket, take_take.
        replace ((N - S r) `min` (S (length bs') - 1))%nat with (N - S r)%nat by lia.
        lia.
      * replace (N - r)%nat with 0%nat by lia.
        replace (N - S r)%nat with 0%nat by lia. simpl. lia.
    + case_decide; lia.
    + case_decide; lia.
    + destruct (decide (r < N)%nat) as [Hr|Hr].
      * replace (N - r)%nat with (S (N - S r)) by lia. simpl.
        rewrite !total_cons, get_incremented. lia.
      * replace (N - r)%nat with 0%nat by lia. simpl. lia.
    + rewrite Hsame by (intros; apply get_set_flag). case_decide; lia.
    + rewrite Hsame by (intros; apply get_set_flag). case_decide; lia.
Qed.

Lemma latencies_cons_if (c : Prop) `{Decision c} e evs :
  latencies (if decide c then e :: evs else evs)
  = (if decide c then latencies [e] else []) ++ latencies evs.
Proof.
  case_decide; [|done]. destruct e; simpl; try done.
  by rewrite app_nil_r.
Qed.

Lemma pooled_cons b bs : pooled (b :: bs) = latencyTimes b ++ pooled bs.
Proof. done. Qed.

(** The latencies of a window after a run, up to their order. *)
Lemma model_run_pooled N tr : ∀ bs,
  (0 < N)%nat → length bs = N →
  pooled (model_run tr bs)
  ≡ₚ pooled (take (N - rotations tr) bs) ++ latencies (recent N tr).
Proof.
  intros bs HN. revert bs.
  induction tr as [|e tr IH]; intros bs Hlen.
  - simpl. by rewrite Nat.sub_0_r, take_ge, app_nil_r by lia.
  - assert (bs ≠ []) as Hne by (intros ->; simpl in *; lia).
    simpl model_run. rewrite IH by (by rewrite model_step_length).
    cbn [recent]. rewrite latencies_cons_if. set (r := rotations tr).
    destruct bs as [|b bs']; [done|]. simpl in Hlen.
    assert (∀ f, (∀ b, latencyTimes (f b) = latencyTimes b) →
                 pooled (take (N - r) (alter f 0%nat (b :: bs')))
                 = pooled (take (N - r) (b :: bs'))) as Hsame.
    { intros f Hf. simpl. destruct (N - r)%nat; [done|]. simpl.
      by rewrite !pooled_cons, Hf. }
    destruct e as [| | |p lat| |]; cbn [rotations model_step latencies]; fold r.
    + destruct (decide (r < N)%nat) as [Hr|Hr].
      * replace (N - r)%nat with (S (N - S r)) by lia. cbn [take length].
        rewrite pooled_cons, take_take.
        replace ((N - S r) `min` (S (length bs') - 1))%nat with (N - S r)%nat by lia.
        done.
      * replace (N - r)%nat with 0%nat by lia.
        by replace (N - S r)%nat with 0%nat by lia.
    + by case_decide.
    + by case_decide.
    + destruct (decide (r < N)%nat) as [Hr|Hr].
      * replace (N - r)%nat with (S (N - S r)) by lia. simpl.
        rewrite !pooled_cons, latencyTimes_incremented, !app_nil_r.
        rewrite <- !app_assoc. f_equiv.
        rewrite !app_assoc. f_equiv. apply Permutation_app_comm.
      * replace (N - r)%nat with 0%nat by lia. done.
    + rewrite Hsame by (intros; apply latencyTimes_set_flag). by case_decide.
    + rewrite Hsame by (intros; apply latencyTimes_set_flag). by case_decide.
Qed.

Lemma sort_proper l1 l2 : l1 ≡ₚ l2 → sort l1 = sort l2.
Proof.
  intros Hp. apply (Sorted_unique Z.le); [apply sort_Sorted..|].
  by rewrite !sort_Permutation.
Qed.

Lemma total_replicate_empty property n :
  total property (replicate n empty_bucket) = 0.
Proof.
  induction n as [|n IH]; [done|]. simpl replicate.
  by rewrite total_cons, IH, get_empty_bucket.
Qed.

Lemma pooled_replicate_empty n : pooled (replicate n empty_bucket) = [].
Proof. induction n as [|n IH]; [done|]. simpl replicate. by rewrite pooled_cons. Qed.

Lemma foldl_accumulate_flag enabled bs : ∀ acc,
  isCircuitBreakerOpen (foldl (accumulate enabled) acc bs)
  = isCircuitBreakerOpen acc.
Proof.
  induction bs as [|b bs IH]; intros acc; simpl; [done|].
  by rewrite IH, accumulate_eq.
Qed.

(** [summarise] looks at the counters and at the latencies up to their
    order. *)
Lemma summarise_proper this t1 t2 :
  (∀ property, get property t1 = get property t2) →
  percentiles t1 = percentiles t2 →
  isCircuitBreakerOpen t1 = isCircuitBreakerOpen t2 →
  latencyTimes t1 ≡ₚ latencyTimes t2 →
  (rollingPercentilesEnabled this = false → latencyTimes t1 = latencyTimes t2) →
  summarise this t1 = summarise this t2.
Proof.
  intros Hget Hps Hflag Hperm Hoff.
  pose proof (Hget Property.failures). pose proof (Hget Property.fallbacks).
  pose proof (Hget Property.successes). pose proof (Hget Property.rejects).
  pose proof (Hget Property.fires). pose proof (Hget Property.timeouts).
  pose proof (Hget Property.cacheHits). pose proof (Hget Property.cacheMisses).
  pose proof (Hget Property.semaphoreRejections).
  destruct t1, t2. simpl in *. subst. unfold summarise.
  destruct (rollingPercentilesEnabled this); simpl.
  - by rewrite (sort_proper _ _ Hperm).
  - by rewrite Hoff.
Qed.

(** What [stats] returns after a run, in terms of the events alone. *)
Lemma stats_of_run options h0 this h tr :
  let N := Z.to_nat (Options.rollingCountBuckets options) in
  0 < Options.rollingCountBuckets options →
  constructor options h0 = Ok (this, h) →
  ∃ h',
    run this tr h = Ok (tt, h') ∧
    stats this h'
    = Ok (summarise this (tally (rollingPercentilesEnabled this) (recent N tr)), h').
Proof.
  intros N Hn (_ & _ & _ & HI)%constructor_inv. fold N in HI.
  assert (0 < N)%nat as HN by (unfold N; lia).
  destruct (run_ok _ _ _ _ _ _ tr HN HI) as (h' & Hrun & HI').
  exists h'. split; [done|]. rewrite (stats_Inv _ _ _ _ _ _ HI'). do 2 f_equal.
  apply summarise_proper.
  - intros property. rewrite foldl_accumulate_get.
    fold (total property (model_run tr (replicate N empty_bucket))).
    rewrite (model_run_total property N) by (done || apply length_replicate).
    rewrite take_replicate, total_replicate_empty, get_empty_bucket.
    by destruct property.
  - by rewrite foldl_accumulate_percentiles.
  - by rewrite foldl_accumulate_flag.
  - rewrite foldl_accumulate_latencyTimes.
    destruct (rollingPercentilesEnabled this); [|done]. simpl.
    rewrite (model_run_pooled N) by (done || apply length_replicate).
    by rewrite take_replicate, pooled_replicate_empty.
  - intros Hoff. by rewrite foldl_accumulate_latencyTimes, Hoff.
Qed.

Lemma get_tally enabled evs property :
  get property (tally enabled evs) = count property evs.
Proof. by destruct property. Qed.

Lemma recent_forget N tr1 tr2 :
  (N ≤ rotations tr2)%nat → recent N (tr1 ++ tr2) = recent N tr2.
Proof.
  intros Hr. induction tr1 as [|e tr1 IH]; [done|].
  simpl. rewrite IH. rewrite decide_False; [done|].
  assert (rotations tr2 ≤ rotations (tr1 ++ tr2))%nat; [|lia].
  clear. induction tr1 as [|e tr1 IH]; [done|]. destruct e; simpl; lia.
Qed.

Lemma length_latencies evs :
  Z.of_nat (length (latencies evs))
  = count Property.successes evs + count Property.failures evs
    + count Property.timeouts evs.
Proof.
  induction evs as [|e evs IH]; [done|].
  destruct e as [| | |p lat| |]; simpl; try done.
  rewrite length_app, Nat2Z.inj_add, IH. destruct p; simpl; lia.
Qed.

(** X1.  The counters of [stats] count the recent calls.  After any run
    of a [Status] with at least one bucket, each of the nine counters
    [stats] returns is the number of [increment] calls for that counter
    that were followed by fewer rotations than the window has buckets. *)
Theorem stats_counts_recent_increments (options : Options.t) (h0 : Heap) this h :
  let N := Z.to_nat (Options.rollingCountBuckets options) in
  0 < Options.rollingCountBuckets options →
  constructor options h0 = Ok (this, h) →
  ∀ tr, ∃ h' s,
    run this tr h = Ok (tt, h') ∧ stats this h' = Ok (s, h') ∧
    ∀ property, get property (totals s) = count property (recent N tr).
Proof.
  intros N Hn Hc tr.
  destruct (stats_of_run options h0 this h tr Hn Hc) as (h' & Hrun & Hs).
  eexists _, _. split_and!; [done..|].
  intros property. by rewrite summarise_get, get_tally.
Qed.

(** X2.  The latencies of [stats].  After any run, the latencies
    [stats] returns are in ascending order; with the rolling percentiles
    enabled they are, up to their order, the latencies recorded by the
    calls the window still holds (an absent latency counting as [0]), and
    with them disabled there are none. *)
Theorem stats_latencies_are_recent (options : Options.t) (h0 : Heap) this h :
  let N := Z.to_nat (Options.rollingCountBuckets options) in
  0 < Options.rollingCountBuckets options →
  constructor options h0 = Ok (this, h) →
  ∀ tr, ∃ h' s,
    run this tr h = Ok (tt, h') ∧ stats this h' = Ok (s, h') ∧
    Sorted Z.le (latencyTimes (totals s)) ∧
    (rollingPercentilesEnabled this = true →
     latencyTimes (totals s) ≡ₚ latencies (recent N tr)) ∧
    (rollingPercentilesEnabled this = false → latencyTimes (totals s) = []).
Proof.
  intros N Hn Hc tr.
  destruct (stats_of_run options h0 this h tr Hn Hc) as (h' & Hrun & Hs).
  eexists _, _. split_and!; [done..| | |]; rewrite summarise_latencyTimes.
  - destruct (rollingPercentilesEnabled this); [apply sort_Sorted|]. simpl. constructor.
  - intros ->. simpl. apply sort_Permutation.
  - by intros ->.
Qed.

(** X3.  With the rolling percentiles enabled, [stats] returns as many
    latencies as its [successes], [failures] and [timeouts] counters add
    up to. *)
Theorem latency_samples_match_counts (options : Options.t) (h0 : Heap) this h :
  0 < Options.rollingCountBuckets options →
  constructor options h0 = Ok (this, h) →
  rollingPercentilesEnabled this = true →
  ∀ tr, ∃ h' s,
    run this tr h = Ok (tt, h') ∧ stats this h' = Ok (s, h') ∧
    Z.of_nat (length (latencyTimes (totals s)))
    = successes (totals s) + failures (totals s) + timeouts (totals s).
Proof.
  intros Hn Hc Hon tr.
  destruct (stats_of_run options h0 this h tr Hn Hc) as (h' & Hrun & Hs).
  eexists _, _. split_and!; [done..|].
  change (successes ?b) with (get Property.successes b).
  change (failures ?b) with (get Property.failures b).
  change (timeouts ?b) with (get Property.timeouts b).
  rewrite !summarise_get, !get_tally, summarise_latencyTimes, Hon.
  rewrite sort_Permutation. simpl. apply length_latencies.
Qed.

(** X4.  The window forgets.  Once the window has rotated as many
    times as it has buckets, [stats] returns what it would return had
    nothing happened before those rotations. *)
Theorem old_events_are_forgotten (options : Options.t) (h0 : Heap) this h tr1 tr2 :
  0 < Options.rollingCountBuckets options →
  constructor options h0 = Ok (this, h) →
  Options.rollingCountBuckets options ≤ Z.of_nat (rotations tr2) →
  ∃ h1 h2 s,
    run this (tr1 ++ tr2) h = Ok (tt, h1) ∧ run this tr2 h = Ok (tt, h2) ∧
    stats this h1 = Ok (s, h1) ∧ stats this h2 = Ok (s, h2).
Proof.
  intros Hn Hc Hr.
  destruct (stats_of_run options h0 this h (tr1 ++ tr2) Hn Hc) as (h1 & Hrun1 & Hs1).
  destruct (stats_of_run options h0 this h tr2 Hn Hc) as (h2 & Hrun2 & Hs2).
  rewrite recent_forget in Hs1 by lia.
  by eexists h1, h2, _.
Qed.

(** X11.  [stats] never reports the state of the circuit.  The
    accumulator of [stats] is a new bucket, which has no
    [isCircuitBreakerOpen] property, and the reduction only sums the
    properties the accumulator has: whatever [open] and [close] wrote
    in the buckets, the value [stats] returns has no such property. *)
Theorem stats_never_reports_the_flag (options : Options.t) (h0 : Heap) this h :
  0 < Options.rollingCountBuckets options →
  constructor options h0 = Ok (this, h) →
  ∀ tr, ∃ h' s,
    run this tr h = Ok (tt, h') ∧ stats this h' = Ok (s, h') ∧
    isCircuitBreakerOpen (totals s) = None.
Proof.
  intros Hn Hc tr.
  destruct (stats_of_run options h0 this h tr Hn Hc) as (h' & Hrun & Hs).
  eexists _, _. split_and!; [done..|].
  unfold summarise. by destruct (rollingPercentilesEnabled this).
Qed.

(** The product of [1] and a length is the length. *)
Lemma rank_of_one n :
  1 ≤ n < 2 ^ 52 → ceil (mul (of_Z 1) (of_Z n)) = Some n.
Proof.
  intros Hn.
  destruct (of_Z_normal n Hn) as (mn & en & -> & Hen & Hmn & Hval).
  change (of_Z 1) with (S754_finite false (2 ^ 52) (-52)).
  unfold mul, prec, emax, SFmul. cbn [xorb].
  assert (Zpos (2 ^ 52 * mn) = Zpos mn * 2 ^ Zpos 52) as HM
    by (rewrite Pos2Z.inj_mul; change (Zpos (2 ^ 52)) with (2 ^ Zpos 52); lia).
  assert (binary_round_aux 53 1024 false (Zpos (2 ^ 52 * mn)) (-52 + en) loc_Exact
          = S754_finite false mn en) as ->.
  { unfold binary_round_aux.
    rewrite (shr_fexp_shift _ _ 52); [| |lia].
    2:{ rewrite (Zdigits2_unique _ 105); [done| |lia]. rewrite HM.
        change (2 ^ (105 - 1)) with (2 ^ 52 * 2 ^ Zpos 52).
        change (2 ^ 105) with (2 ^ 53 * 2 ^ Zpos 52).
        assert (0 < 2 ^ Zpos 52) by done. nia. }
    rewrite HM, iter_shr_1_exact by lia.
    cbn [shr_m loc_of_shr_record round_nearest_even].
    rewrite shr_fexp_noshift by (try apply Zdigits2_unique; lia).
    cbn [shr_m]. rewrite (proj2 (Z.leb_le _ _)) by lia.
    f_equal. lia. }
  cbn [ceil cond_Zopp]. destruct (Z.leb_spec 0 en); [lia|].
  assert (0 < 2 ^ (- en)) by (apply Z.pow_pos_nonneg; lia).
  rewrite Hval, <- Z.mul_opp_l, Z.div_mul by lia. f_equal. lia.
Qed.

Lemma Sorted_lookup_le l : ∀ i j x y,
  Sorted Z.le l → (i ≤ j)%nat → l !! i = Some x → l !! j = Some y → x ≤ y.
Proof.
  intros i j x y Hs%(Sorted_StronglySorted Z.le). revert i j x y.
  induction Hs as [|a l Hs IH Hall]; intros i j x y Hij Hi Hj; [done|].
  destruct i as [|i], j as [|j]; simpl in *; simplify_eq; [lia| |lia|by eapply IH; [|done..]; lia].
  rewrite Forall_forall in Hall. apply Hall. by eapply list_elem_of_lookup_2.
Qed.

Lemma configured_percentile_observed p arr :
  p ∈ percentile_table → arr ≠ [] → Z.of_nat (length arr) < 2 ^ 52 →
  calculatePercentile p arr ∈ arr.
Proof.
  intros Hp Harr Hlen. destruct (is_zero p) eqn:Hz.
  - destruct arr as [|x rest]; [done|].
    rewrite calculatePercentile_zero by done. by left.
  - destruct (configured_rank_in_range p (Z.of_nat (length arr)) Hp Hz)
      as (k & Hk & Hr); [destruct arr; [done|simpl in *; lia]|].
    destruct (calculatePercentile_rank p arr k Hz Hk Hr) as (x & Hx & ->).
    by eapply list_elem_of_lookup_2.
Qed.

Lemma percentile_one_is_last arr :
  arr ≠ [] → Z.of_nat (length arr) < 2 ^ 52 →
  arr !! (length arr - 1)%nat = Some (calculatePercentile (of_Z 1) arr).
Proof.
  intros Harr Hlen.
  assert (1 ≤ Z.of_nat (length arr)) by (destruct arr; [done|simpl; lia]).
  destruct (calculatePercentile_rank (of_Z 1) arr (Z.of_nat (length arr)))
    as (x & Hx & ->); [done|by apply rank_of_one|lia|].
  rewrite <- Hx. f_equal. lia.
Qed.

(** The percentile table of [stats] after a run. *)
Lemma percentiles_of_run options h0 this h tr :
  let N := Z.to_nat (Options.rollingCountBuckets options) in
  0 < Options.rollingCountBuckets options →
  constructor options h0 = Ok (this, h) →
  rollingPercentilesEnabled this = true →
  ∃ h' s,
    run this tr h = Ok (tt, h') ∧ stats this h' = Ok (s, h') ∧
    latencyTimes (totals s) = sort (latencies (recent N tr)) ∧
    ∀ p, p ∈ percentile_table →
      percentiles (totals s) !! p
      = Some (calculatePercentile p (sort (latencies (recent N tr)))).
Proof.
  intros N Hn Hc Hon.
  destruct (stats_of_run options h0 this h tr Hn Hc) as (h' & Hrun & Hs).
  apply constructor_inv in Hc as (_ & Hthis & _).
  eexists _, _. split_and!; [done..| |].
  - by rewrite summarise_latencyTimes, Hon.
  - intros p Hp. rewrite summarise_percentiles, Hon. simpl.
    rewrite (lookup_foldl_insert (λ p, calculatePercentile p _)).
    rewrite decide_True; [done|]. by rewrite Hthis.
Qed.

(** X5.  Percentiles are observations.  With the rolling percentiles
    enabled and at least one latency in the window (and fewer than
    [2^52]), [stats] gives every configured percentile a value, and that
    value is one of the latencies of the window: never an interpolation,
    and not the default [0] either. *)
Theorem percentiles_are_observed_latencies (options : Options.t) (h0 : Heap)
    this h tr :
  let N := Z.to_nat (Options.rollingCountBuckets options) in
  0 < Options.rollingCountBuckets options →
  constructor options h0 = Ok (this, h) →
  rollingPercentilesEnabled this = true →
  latencies (recent N tr) ≠ [] →
  Z.of_nat (length (latencies (recent N tr))) < 2 ^ 52 →
  ∃ h' s,
    run this tr h = Ok (tt, h') ∧ stats this h' = Ok (s, h') ∧
    ∀ p, p ∈ PERCENTILES this →
      ∃ v, percentiles (totals s) !! p = Some v ∧ v ∈ latencies (recent N tr).
Proof.
  intros N Hn Hc Hon Hne Hlen. subst N.
  destruct (percentiles_of_run options h0 this h tr Hn Hc Hon)
    as (h' & s & Hrun & Hs & _ & Hps).
  apply constructor_inv in Hc as (_ & Hthis & _).
  exists h', s. split_and!; [done..|]. intros p Hp.
  rewrite Hthis in Hp. eexists. split; [by apply Hps|].
  assert (calculatePercentile p (sort (latencies (recent (Z.to_nat (Options.rollingCountBuckets options)) tr)))
          ∈ sort (latencies (recent (Z.to_nat (Options.rollingCountBuckets options)) tr))) as Hin.
  { apply configured_percentile_observed; [done| |by rewrite sort_Permutation].
    intros Hnil. apply Hne, Permutation_nil_r.
    by rewrite <- Hnil, sort_Permutation. }
  revert Hin. generalize (calculatePercentile p (sort (latencies (recent (Z.to_nat (Options.rollingCountBuckets options)) tr)))).
  intros v Hv. by rewrite sort_Permutation in Hv.
Qed.

(** X6.  Under the same conditions the percentile [0] is the smallest
    latency of the window and the percentile [1] the largest. *)
Theorem percentile_zero_and_one_are_min_and_max (options : Options.t)
    (h0 : Heap) this h tr :
  let N := Z.to_nat (Options.rollingCountBuckets options) in
  0 < Options.rollingCountBuckets options →
  constructor options h0 = Ok (this, h) →
  rollingPercentilesEnabled this = true →
  latencies (recent N tr) ≠ [] →
  Z.of_nat (length (latencies (recent N tr))) < 2 ^ 52 →
  ∃ h' s lo hi,
    run this tr h = Ok (tt, h') ∧ stats this h' = Ok (s, h') ∧
    percentiles (totals s) !! of_Z 0 = Some lo ∧
    percentiles (totals s) !! of_Z 1 = Some hi ∧
    lo ∈ latencies (recent N tr) ∧ hi ∈ latencies (recent N tr) ∧
    ∀ x, x ∈ latencies (recent N tr) → lo ≤ x ≤ hi.
Proof.
  intros N Hn Hc Hon Hne Hlen. subst N.
  destruct (percentiles_of_run options h0 this h tr Hn Hc Hon)
    as (h' & s & Hrun & Hs & _ & Hps).
  set (arr := sort (latencies (recent (Z.to_nat (Options.rollingCountBuckets options)) tr))) in *.
  assert (arr ≠ []) as Harr.
  { intros Hnil. apply Hne, Permutation_nil_r. unfold arr in Hnil.
    by rewrite <- Hnil, sort_Permutation. }
  assert (Z.of_nat (length arr) < 2 ^ 52) as Hlen'
    by (unfold arr; by rewrite sort_Permutation).
  assert (∀ x, x ∈ arr ↔ x ∈ latencies (recent (Z.to_nat (Options.rollingCountBuckets options)) tr)) as Hin
    by (intros x; unfold arr; by rewrite sort_Permutation).
  pose proof (percentile_one_is_last arr Harr Hlen') as Hlast.
  assert (arr !! 0%nat = Some (calculatePercentile (of_Z 0) arr)) as Hfirst.
  { destruct arr as [|x rest]; [done|]. by rewrite calculatePercentile_zero. }
  exists h', s, (calculatePercentile (of_Z 0) arr), (calculatePercentile (of_Z 1) arr).
  split_and!; [done|done|apply Hps; by left|
              apply Hps; do 8 apply list_elem_of_further; apply list_elem_of_here|..].
  - apply Hin. by eapply list_elem_of_lookup_2.
  - apply Hin. by eapply list_elem_of_lookup_2.
  - intros x [i Hi]%Hin%list_elem_of_lookup_1.
    pose proof (lookup_lt_Some _ _ _ Hi).
    split; (eapply (Sorted_lookup_le arr); [apply sort_Sorted| |done..]); lia.
Qed.

Lemma round_aux_has_sign sx mx ex lx :
  has_sign sx (binary_round_aux 53 1024 sx mx ex lx).
Proof.
  unfold binary_round_aux.
  destruct (shr_fexp 53 1024 mx ex lx) as [mrs' e'].
  destruct (shr_fexp 53 1024 _ e' loc_Exact) as [mrs'' e''].
  destruct (shr_m mrs''); [done| |done]. by destruct (e'' <=? 1024 - 53).
Qed.

Lemma of_Z_has_sign n : 0 ≤ n → has_sign false (of_Z n).
Proof.
  intros Hn. destruct n as [|p|p]; [done| |lia].
  unfold of_Z, prec, emax, binary_normalize, binary_round.
  destruct (shl_align _ _ _). apply round_aux_has_sign.
Qed.

Lemma mul_has_sign s1 s2 x y :
  has_sign s1 x → has_sign s2 y → has_sign (xorb s1 s2) (mul x y).
Proof.
  unfold mul, prec, emax.
  destruct x as [sx|sx| |sx mx ex], y as [sy|sy| |sy my ey]; simpl;
    intros; subst; try done.
  apply round_aux_has_sign.
Qed.

Lemma ceil_negative x k : has_sign true x → ceil x = Some k → k ≤ 0.
Proof.
  destruct x as [sx|sx| |sx m e]; simpl; intros Hs [= <-]; subst; [done|].
  cbn [cond_Zopp]. pose proof (Pos2Z.is_pos m) as Hm.
  change (- Zpos m) with (Z.neg m). change (- Z.neg m) with (Zpos m).
  destruct (Z.leb_spec 0 e).
  - assert (0 < 2 ^ e) by (by apply Z.pow_pos_nonneg).
    replace (Z.neg m) with (- Zpos m) by done. nia.
  - assert (0 < 2 ^ (- e)) by (apply Z.pow_pos_nonneg; lia).
    assert (0 ≤ Zpos m / 2 ^ (- e)) by (apply Z.div_pos; lia). lia.
Qed.

Lemma calculatePercentile_outside p arr :
  is_zero p = false →
  (∀ k, ceil (mul p (of_Z (Z.of_nat (length arr)))) = Some k →
        k < 1 ∨ Z.of_nat (length arr) < k) →
  calculatePercentile p arr = 0.
Proof.
  intros Hz Hout. unfold calculatePercentile. rewrite Hz.
  destruct (ceil _) as [k|]; [|done]. simpl. unfold element.
  destruct (Z.ltb_spec (k - 1) 0); [done|].
  rewrite lookup_ge_None_2; [done|]. destruct (Hout k eq_refl); lia.
Qed.

(** X7.  [calculatePercentile] returns [0] for every array when the
    percentile is NaN, an infinity or a negative number: the index it
    computes is then not one of the array. *)
Theorem percentile_outside_the_array_is_zero (arr : list Z) :
  calculatePercentile S754_nan arr = 0 ∧
  (∀ s, calculatePercentile (S754_infinity s) arr = 0) ∧
  (∀ m e, calculatePercentile (S754_finite true m e) arr = 0).
Proof.
  split_and!.
  - by apply calculatePercentile_outside.
  - intros s. apply calculatePercentile_outside; [by destruct s|].
    intros k Hk. exfalso. revert Hk. unfold mul, prec, emax.
    pose proof (of_Z_has_sign (Z.of_nat (length arr)) ltac:(lia)) as Hs.
    by destruct (of_Z _).
  - intros m e. apply calculatePercentile_outside; [done|].
    intros k Hk. left.
    pose proof (mul_has_sign true false (S754_finite true m e) _ eq_refl
                  (of_Z_has_sign (Z.of_nat (length arr)) ltac:(lia))) as Hs.
    pose proof (ceil_negative _ _ Hs Hk). lia.
Qed.

(** ** Two status objects in one store *)

Lemma points_to_lt h refs bs r :
  points_to h refs bs → r ∈ refs → (r < length (buckets h))%nat.
Proof.
  intros Hp [i Hi]%list_elem_of_lookup_1.
  destruct (Forall2_lookup_l _ _ _ _ _ Hp Hi) as (b & _ & Hb).
  by eapply lookup_lt_Some.
Qed.

(** One event of a [Status]: its effect on its own window, and what it
    leaves alone. *)
Lemma step_owner this refs bs h e :
  Owns this refs bs h → bs ≠ [] →
  ∃ h',
    step this e h = Ok (tt, h') ∧
    Owns this (next_refs e h refs) (model_step e bs) h' ∧
    (∀ i l, i ≠ WINDOW this → arrays h !! i = Some l → arrays h' !! i = Some l) ∧
    (∀ r b, r ∉ refs → buckets h !! r = Some b → buckets h' !! r = Some b) ∧
    (∀ r, r ∈ next_refs e h refs → r ∈ refs ∨ (length (buckets h) ≤ r)%nat).
Proof.
  intros [Hw Hnd Hc] Hne.
  destruct refs as [|r refs].
  { apply Forall2_nil_inv_l in Hc. done. }
  apply Forall2_cons_inv_l in Hc as Hc'. destruct Hc' as (b & bs' & Hr & Hc' & ->).
  apply NoDup_cons in Hnd as Hnd'. destruct Hnd' as [Hnot Hnd'].
  assert (∀ f, ∃ h',
            h' = mkHeap (arrays h) (<[r := f b]> (buckets h)) ∧
            Owns this (r :: refs) (alter f 0%nat (b :: bs')) h' ∧
            (∀ i l, i ≠ WINDOW this → arrays h !! i = Some l → arrays h' !! i = Some l) ∧
            (∀ r' b', r' ∉ r :: refs → buckets h !! r' = Some b' →
                      buckets h' !! r' = Some b')) as Hcur.
  { intros f. eexists. split; [done|]. split_and!.
    - split; simpl; [done|done|]. constructor; [|by apply points_to_update].
      simpl. apply list_lookup_insert_eq. by eapply lookup_lt_Some.
    - done.
    - intros r' b' Hr' Hb'. simpl. rewrite list_lookup_insert_ne; [done|].
      intros ->. apply Hr'. by left. }
  destruct e as [| | |property latencyRunTime| |]; unfold step, next_refs.
  - eexists. split; [by apply nextBucket_ok|]. split_and!.
    + split.
      * cbn [arrays]. rewrite list_lookup_insert_eq by by eapply lookup_lt_Some.
        unfold unshift, pop. by rewrite !length_fmap, <- fmap_take.
      * apply NoDup_cons. split.
        -- intros [i [Hi _]]%elem_of_take.
           apply list_elem_of_lookup_2 in Hi.
           pose proof (points_to_lt _ _ _ _ Hc Hi). lia.
        -- eapply sublist_NoDup; [exact Hnd|apply sublist_take].
      * constructor; [simpl; by apply list_lookup_middle|].
        rewrite <- (Forall2_length _ _ _ Hc).
        apply (points_to_alloc h). by apply Forall2_take.
    + intros i l Hi Hl. simpl. by rewrite list_lookup_insert_ne.
    + intros r' b' _ Hb'. simpl. by apply lookup_app_l_Some.
    + intros r' [->|[i [Hi _]]%elem_of_take]%elem_of_cons; [right; lia|left].
      by eapply list_elem_of_lookup_2.
  - exists h. unfold bind.
    rewrite (stats_ok _ _ _ Hw) by by eapply points_to_defined.
    split_and!; [done|by split|done|done|by left].
  - eexists. unfold bind. rewrite (window_ok _ _ _ Hw). split; [done|].
    split_and!; [split; simpl; [by apply lookup_app_l_Some|done..]| |done|by left].
    intros i l _ Hl. simpl. by apply lookup_app_l_Some.
  - destruct (Hcur (incremented property latencyRunTime)) as (h' & -> & Ho & Ha & Hb).
    eexists. split; [by eapply increment_ok|]. split_and!; [done..|by left].
  - destruct (Hcur (set_isCircuitBreakerOpen (Some true))) as (h' & -> & Ho & Ha & Hb).
    eexists. split; [by eapply open_ok|]. split_and!; [done..|by left].
  - destruct (Hcur (set_isCircuitBreakerOpen (Some false))) as (h' & -> & Ho & Ha & Hb).
    eexists. split; [by eapply close_ok|]. split_and!; [done..|by left].
Qed.


Lemma model_step_nonempty e bs : bs ≠ [] → model_step e bs ≠ [].
Proof.
  intros Hbs Hnil. apply (f_equal length) in Hnil.
  rewrite model_step_length in Hnil by done. by destruct bs.
Qed.

Lemma points_to_frame h h' refs bs :
  points_to h refs bs →
  (∀ r b, r ∈ refs → buckets h !! r = Some b → buckets h' !! r = Some b) →
  points_to h' refs bs.
Proof.
  intros Hp. induction Hp as [|r b refs bs Hr _ IH]; intros Hf; constructor.
  - apply Hf; [by left|done].
  - apply IH. intros r' b' Hin. apply Hf. by right.
Qed.

(** An event of one [Status] leaves the window of another one alone. *)
Lemma step_beside a b ra ba rb bb h e :
  Owns a ra ba h → Owns b rb bb h →
  WINDOW a ≠ WINDOW b → (∀ r, r ∈ ra → r ∉ rb) → ba ≠ [] →
  ∃ h' ra',
    step a e h = Ok (tt, h') ∧
    Owns a ra' (model_step e ba) h' ∧ Owns b rb bb h' ∧
    (∀ r, r ∈ ra' → r ∉ rb).
Proof.
  intros Ha [Hwb Hndb Hcb] Hne Hdis Hba.
  destruct (step_owner a ra ba h e Ha Hba) as (h' & Hstep & Ha' & Harr & Hbuck & Hnew).
  exists h', (next_refs e h ra). split_and!; [done|done| |].
  - split; [by apply Harr|done|].
    eapply points_to_frame; [done|]. intros r b' Hin Hr.
    apply Hbuck; [|done]. intros Hin'. by apply (Hdis r).
  - intros r [Hin|Hge]%Hnew; [by apply Hdis|].
    intros Hin. pose proof (points_to_lt _ _ _ _ Hcb Hin). lia.
Qed.

Lemma run2_spec a b tr : ∀ ra ba rb bb h,
  Owns a ra ba h → Owns b rb bb h →
  WINDOW a ≠ WINDOW b → (∀ r, r ∈ ra → r ∉ rb) → ba ≠ [] → bb ≠ [] →
  ∃ h' ra' rb',
    run2 a b tr h = Ok (tt, h') ∧
    Owns a ra' (model_run (events_of_first tr) ba) h' ∧
    Owns b rb' (model_run (events_of_second tr) bb) h'.
Proof.
  induction tr as [|[e|e] tr IH]; intros ra ba rb bb h Ha Hb Hne Hdis Hba Hbb.
  - by exists h, ra, rb.
  - destruct (step_beside a b ra ba rb bb h e) as (h' & ra' & Hs & Ha' & Hb' & Hdis');
      [done..|].
    destruct (IH ra' (model_step e ba) rb bb h') as (h'' & ra'' & rb'' & Hr & ? & ?);
      [done..|by apply model_step_nonempty|done|].
    exists h'', ra'', rb''. split; [|done].
    simpl. unfold bind. by rewrite Hs.
  - destruct (step_beside b a rb bb ra ba h e) as (h' & rb' & Hs & Hb' & Ha' & Hdis');
      [done|done|done|naive_solver|done|].
    destruct (IH ra ba rb' (model_step e bb) h') as (h'' & ra'' & rb'' & Hr & ? & ?);
      [done|done|done|naive_solver|done|by apply model_step_nonempty|].
    exists h'', ra'', rb''. split; [|done].
    simpl. unfold bind. by rewrite Hs.
Qed.

Lemma stats_Owns this refs bs h :
  Owns this refs bs h →
  stats this h =
    Ok (summarise this
          (foldl (accumulate (rollingPercentilesEnabled this)) empty_bucket bs), h).
Proof.
  intros [Hw _ Hc]. rewrite (stats_ok _ _ _ Hw) by by eapply points_to_defined.
  by rewrite (points_to_window_buckets _ _ _ Hc).
Qed.

Lemma Inv_Owns this b0 N k bs h : Inv this b0 N k bs h → Owns this (shape b0 N k) bs h.
Proof. intros [Hw _ Hc]. split; [done|apply shape_NoDup|done]. Qed.

(** X9.  Two [Status] objects of one store do not interfere.  Whatever
    the interleaving of their events, each of them ends with the [stats]
    it has when its own events are run alone. *)
Theorem status_objects_are_independent (o1 o2 : Options.t) (h0 : Heap) a h1 b h2 :
  0 < Options.rollingCountBuckets o1 →
  0 < Options.rollingCountBuckets o2 →
  constructor o1 h0 = Ok (a, h1) →
  constructor o2 h1 = Ok (b, h2) →
  ∀ tr, ∃ h3 sa sb,
    run2 a b tr h2 = Ok (tt, h3) ∧
    stats a h3 = Ok (sa, h3) ∧ stats b h3 = Ok (sb, h3) ∧
    (∃ ha, run a (events_of_first tr) h1 = Ok (tt, ha) ∧ stats a ha = Ok (sa, ha)) ∧
    (∃ hb, run b (events_of_second tr) h2 = Ok (tt, hb) ∧ stats b hb = Ok (sb, hb)).
Proof.
  intros Hn1 Hn2 Hc1 Hc2 tr.
  apply constructor_inv in Hc1 as (_ & Ha & Hh1 & HIa).
  apply constructor_inv in Hc2 as (_ & Hb & Hh2 & HIb).
  set (N1 := Z.to_nat (Options.rollingCountBuckets o1)) in *.
  set (N2 := Z.to_nat (Options.rollingCountBuckets o2)) in *.
  assert (0 < N1)%nat as HN1 by (unfold N1; lia).
  assert (0 < N2)%nat as HN2 by (unfold N2; lia).
  pose proof (Inv_Owns _ _ _ _ _ _ HIa) as [Hwa Hnda Hca].
  pose proof (Inv_Owns _ _ _ _ _ _ HIb) as Hob.
  assert (Owns a (shape (length (buckets h0)) N1 0) (replicate N1 empty_bucket) h2)
    as Hoa.
  { rewrite Hh2. split; [|done|by apply points_to_alloc].
    simpl. by apply lookup_app_l_Some. }
  destruct (run2_spec a b tr _ _ _ _ h2 Hoa Hob) as (h3 & ra & rb & Hrun & Ha3 & Hb3).
  - rewrite Ha, Hb. simpl. rewrite Hh1. simpl. rewrite length_app. simpl. lia.
  - intros r Hr Hr'. apply shape_bound in Hr.
    rewrite shape_0 in Hr'. apply elem_of_seq in Hr'.
    rewrite Hh1 in Hr'. simpl in Hr'. rewrite length_app, length_replicate in Hr'. lia.
  - intros Hnil%(f_equal length). rewrite length_replicate in Hnil. simpl in Hnil. lia.
  - intros Hnil%(f_equal length). rewrite length_replicate in Hnil. simpl in Hnil. lia.
  - destruct (run_ok _ _ _ _ _ _ (events_of_first tr) HN1 HIa) as (ha & Hra & HIa').
    destruct (run_ok _ _ _ _ _ _ (events_of_second tr) HN2 HIb) as (hb & Hrb & HIb').
    eexists h3, _, _. split_and!;
      [done|by eapply stats_Owns|by eapply stats_Owns|..].
    + exists ha. split; [done|]. by eapply stats_Inv.
    + exists hb. split; [done|]. by eapply stats_Inv.
Qed.

(** ** Windows with empty slots *)

(** A run throws only on a window that is still empty. *)
Lemma run_throws_only_empty this b0 N tr : ∀ k bs h err,
  Inv this b0 N k bs h → run this tr h = Throw err →
  err = TypeError ∧ N = 0%nat ∧ k = 0%nat.
Proof.
  induction tr as [|e tr IH]; intros k bs h err HI Hrun; [done|].
  pose proof (step_spec _ _ _ _ _ _ e HI) as Hstep.
  simpl in Hrun. unfold bind in Hrun.
  destruct (step this e h) as [[[] h1]|err'].
  - destruct (IH _ _ _ _ Hstep Hrun) as (-> & -> & Hk). split_and!; [done..|lia].
  - injection Hrun as <-. destruct Hstep as [-> ->].
    apply Inv_length in HI. simpl in HI. split_and!; [done|lia|lia].
Qed.

(** X8.  A window of zero buckets.  With [rollingCountBuckets = 0] the
    constructor returns a [Status] with an empty window, on which
    [increment], [open] and [close] throw a [TypeError] and [stats]
    returns counters that are all [0]; after a first rotation every run
    goes through, on a window that has exactly one slot. *)
Theorem zero_bucket_window (options : Options.t) (h0 : Heap) :
  Options.rollingCountBuckets options = 0 →
  ∃ this h,
    constructor options h0 = Ok (this, h) ∧
    arrays h !! WINDOW this = Some [] ∧
    (∀ property latencyRunTime,
       increment this property latencyRunTime h = Throw TypeError) ∧
    open this h = Throw TypeError ∧ close this h = Throw TypeError ∧
    (∃ s, stats this h = Ok (s, h) ∧ ∀ property, get property (totals s) = 0) ∧
    (∀ tr, ∃ h' r,
       run this (Rotate :: tr) h = Ok (tt, h') ∧
       arrays h' !! WINDOW this = Some [Some r]).
Proof.
  intros Hn.
  assert (∃ this h, constructor options h0 = Ok (this, h)) as (this & h & Hc).
  { eexists _, _. apply constructor_ok. lia. }
  apply constructor_inv in Hc as Hinv. destruct Hinv as (_ & _ & _ & HI).
  rewrite Hn in HI. simpl in HI.
  pose proof (inv_window _ _ _ _ _ _ HI) as Hw. rewrite shape_0 in Hw. simpl in Hw.
  eexists _, _. split_and!; [exact Hc|exact Hw|..].
  - intros property latencyRunTime. by apply increment_TypeError.
  - unfold open, current, bind, read_array. by rewrite Hw.
  - unfold close, current, bind, read_array. by rewrite Hw.
  - eexists. split; [by eapply stats_Inv|]. intros property.
    rewrite summarise_get. by destruct property.
  - intros tr.
    pose proof (step_spec _ _ _ _ _ _ Rotate HI) as Hstep.
    change (step this Rotate h) with (nextBucket (WINDOW this) h) in Hstep.
    rewrite (nextBucket_ok _ _ _ Hw) in Hstep.
    change (run this (Rotate :: tr) h)
      with (bind (nextBucket (WINDOW this)) (λ _, run this tr) h).
    unfold bind at 1. rewrite (nextBucket_ok _ _ _ Hw).
    pose proof (run_spec _ _ _ tr _ _ _ Hstep) as Hrun.
    destruct (run _ tr _) as [[[] h']|err] eqn:Hr.
    + exists h'. destruct Hrun as [Hw' _ _].
      pose proof (shape_length (length (buckets h0)) (Z.to_nat 0)
                    (rotations tr + (rotations [Rotate] + 0))) as Hlen.
      change (Z.to_nat 0) with 0%nat in *. simpl rotations in *.
      destruct (shape _ _ _) as [|r [|r' l]]; simpl in Hlen; [lia| |lia].
      by exists r.
    + destruct (run_throws_only_empty _ _ _ _ _ _ _ _ Hstep Hr) as (_ & _ & Hk).
      simpl in Hk. lia.
Qed.

Lemma window_buckets_defined_slots h w :
  window_buckets h (filter is_Some w) = window_buckets h w.
Proof.
  unfold window_buckets. induction w as [|[r|] w IH]; [done| |].
  - rewrite filter_cons_True by done. simpl.
    destruct (buckets h !! r); [f_equal|]; exact IH.
  - rewrite filter_cons_False by (by intros []). done.
Qed.

Lemma reduce_skips_holes enabled h w : ∀ acc,
  (∀ r, Some r ∈ w → (r < length (buckets h))%nat) →
  reduce enabled w acc h = Ok (foldl (accumulate enabled) acc (window_buckets h w), h).
Proof.
  induction w as [|[r|] w IH]; intros acc Hw; [done| |].
  - destruct (lookup_lt_is_Some_2 (buckets h) r) as [b Hb]; [apply Hw; by left|].
    simpl. unfold bind, read_bucket. rewrite Hb. simpl. apply IH. intros r' Hr'. apply Hw. by right.
  - simpl. rewrite IH; [done|]. intros r' Hr'. apply Hw. by right.
Qed.

(** X10.  [stats] skips the slots of the window that hold no bucket:
    on any store whose window holds buckets or nothing, it returns
    without an exception, leaves the store as it is, and returns what it
    returns on the window with the empty slots removed. *)
Theorem stats_skips_undefined_slots (this : Status) (h : Heap) (w : list (option nat)) :
  arrays h !! WINDOW this = Some w →
  (∀ r, Some r ∈ w → (r < length (buckets h))%nat) →
  ∃ s h',
    stats this h = Ok (s, h) ∧
    h' = mkHeap (<[WINDOW this := filter is_Some w]> (arrays h)) (buckets h) ∧
    stats this h' = Ok (s, h').
Proof.
  intros Hw Hvalid. pose proof (lookup_lt_Some _ _ _ Hw) as Hlt.
  eexists _, _. split_and!; [|done|].
  - unfold stats, bind at 1, read_array. rewrite Hw. unfold bind.
    by rewrite reduce_skips_holes.
  - unfold stats, bind at 1, read_array. simpl.
    rewrite list_lookup_insert_eq by done. unfold bind.
    rewrite reduce_skips_holes.
    + unfold window_buckets at 1. simpl. fold (window_buckets h (filter is_Some w)).
      by rewrite window_buckets_defined_slots.
    + simpl. intros r [_ Hr]%list_elem_of_filter. by apply Hvalid.
Qed.

(** * The further theorems at concrete inputs *)

(** X1 at two buckets: the first call is rotated out, the other two are counted. *)
Lemma stats_counts_recent_increments_witness :
  0 < Options.rollingCountBuckets (Options.make 2 1000 true) ∧
  ∃ this h h' s,
    constructor (Options.make 2 1000 true) empty_heap = Ok (this, h) ∧
    run this [Increment Property.fires None; Rotate;
              Increment Property.successes (Some 5); Rotate;
              Increment Property.fires None] h = Ok (tt, h') ∧
    stats this h' = Ok (s, h') ∧
    ∀ property,
      get property (totals s)
      = count property (recent 2 [Increment Property.fires None; Rotate;
                                  Increment Property.successes (Some 5); Rotate;
                                  Increment Property.fires None]).
Proof.
  split; [simpl; lia|].
  eexists _, _.
  destruct (stats_counts_recent_increments (Options.make 2 1000 true) empty_heap
              _ _ ltac:(simpl; lia) eq_refl
              [Increment Property.fires None; Rotate;
               Increment Property.successes (Some 5); Rotate;
               Increment Property.fires None])
    as (h' & s & Hr & Hs & Hg).
  exists h', s. split_and!; [reflexivity|exact Hr|exact Hs|exact Hg].
Defined.

(** X2 at two buckets. *)
Lemma stats_latencies_are_recent_witness :
  0 < Options.rollingCountBuckets (Options.make 2 1000 true) ∧
  ∃ this h h' s,
    constructor (Options.make 2 1000 true) empty_heap = Ok (this, h) ∧
    run this [Increment Property.failures (Some 9); Rotate;
              Increment Property.successes (Some 5); Rotate;
              Increment Property.timeouts (Some 3)] h = Ok (tt, h') ∧
    stats this h' = Ok (s, h') ∧
    Sorted Z.le (latencyTimes (totals s)) ∧
    latencyTimes (totals s) ≡ₚ [5; 3].
Proof.
  split; [simpl; lia|].
  eexists _, _.
  destruct (stats_latencies_are_recent (Options.make 2 1000 true) empty_heap
              _ _ ltac:(simpl; lia) eq_refl
              [Increment Property.failures (Some 9); Rotate;
               Increment Property.successes (Some 5); Rotate;
               Increment Property.timeouts (Some 3)])
    as (h' & s & Hr & Hs & Hsorted & Hon & _).
  exists h', s.
  split_and!; [reflexivity|exact Hr|exact Hs|exact Hsorted|exact (Hon eq_refl)].
Defined.

(** X3 at two buckets. *)
Lemma latency_samples_match_counts_witness :
  0 < Options.rollingCountBuckets (Options.make 2 1000 true) ∧
  ∃ this h h' s,
    constructor (Options.make 2 1000 true) empty_heap = Ok (this, h) ∧
    rollingPercentilesEnabled this = true ∧
    run this [Increment Property.failures (Some 9);
              Increment Property.fires None; Rotate;
              Increment Property.successes None] h = Ok (tt, h') ∧
    stats this h' = Ok (s, h') ∧
    Z.of_nat (length (latencyTimes (totals s)))
    = successes (totals s) + failures (totals s) + timeouts (totals s).
Proof.
  split; [simpl; lia|].
  eexists _, _.
  destruct (latency_samples_match_counts (Options.make 2 1000 true) empty_heap
              _ _ ltac:(simpl; lia) eq_refl eq_refl
              [Increment Property.failures (Some 9);
               Increment Property.fires None; Rotate;
               Increment Property.successes None])
    as (h' & s & Hr & Hs & Hlen).
  exists h', s. split_and!; [reflexivity|reflexivity|exact Hr|exact Hs|exact Hlen].
Defined.

(** X4 at two buckets: two rotations forget the calls before them. *)
Lemma old_events_are_forgotten_witness :
  0 < Options.rollingCountBuckets (Options.make 2 1000 true) ∧
  Options.rollingCountBuckets (Options.make 2 1000 true)
    ≤ Z.of_nat (rotations [Rotate; Increment Property.fires None; Rotate]) ∧
  ∃ this h h1 h2 s,
    constructor (Options.make 2 1000 true) empty_heap = Ok (this, h) ∧
    run this ([Increment Property.failures (Some 9); Open]
              ++ [Rotate; Increment Property.fires None; Rotate]) h = Ok (tt, h1) ∧
    run this [Rotate; Increment Property.fires None; Rotate] h = Ok (tt, h2) ∧
    stats this h1 = Ok (s, h1) ∧ stats this h2 = Ok (s, h2).
Proof.
  split; [simpl; lia|]. split; [simpl; lia|].
  eexists _, _.
  destruct (old_events_are_forgotten (Options.make 2 1000 true) empty_heap _ _
              [Increment Property.failures (Some 9); Open]
              [Rotate; Increment Property.fires None; Rotate]
              ltac:(simpl; lia) eq_refl ltac:(simpl; lia))
    as (h1 & h2 & s & Hr1 & Hr2 & Hs1 & Hs2).
  exists h1, h2, s. split_and!; [reflexivity|exact Hr1|exact Hr2|exact Hs1|exact Hs2].
Defined.

(** X5 at two buckets and three latencies. *)
Lemma percentiles_are_observed_latencies_witness :
  0 < Options.rollingCountBuckets (Options.make 2 1000 true) ∧
  latencies (recent 2 [Increment Property.successes (Some 30); Rotate;
                       Increment Property.failures (Some 10);
                       Increment Property.timeouts (Some 20)]) ≠ [] ∧
  ∃ this h h' s,
    constructor (Options.make 2 1000 true) empty_heap = Ok (this, h) ∧
    rollingPercentilesEnabled this = true ∧
    run this [Increment Property.successes (Some 30); Rotate;
              Increment Property.failures (Some 10);
              Increment Property.timeouts (Some 20)] h = Ok (tt, h') ∧
    stats this h' = Ok (s, h') ∧
    ∀ p, p ∈ PERCENTILES this →
      ∃ v, percentiles (totals s) !! p = Some v ∧ v ∈ [30; 10; 20].
Proof.
  split; [simpl; lia|]. split; [by vm_compute|].
  eexists _, _.
  destruct (percentiles_are_observed_latencies (Options.make 2 1000 true)
              empty_heap _ _
              [Increment Property.successes (Some 30); Rotate;
               Increment Property.failures (Some 10);
               Increment Property.timeouts (Some 20)]
              ltac:(simpl; lia) eq_refl eq_refl ltac:(by vm_compute)
              ltac:(by vm_compute))
    as (h' & s & Hr & Hs & Hp).
  exists h', s. split_and!; [reflexivity|reflexivity|exact Hr|exact Hs|exact Hp].
Defined.

(** X6 at two buckets and three latencies: the extremes are [10] and [30]. *)
Lemma percentile_zero_and_one_are_min_and_max_witness :
  0 < Options.rollingCountBuckets (Options.make 2 1000 true) ∧
  ∃ this h h' s lo hi,
    constructor (Options.make 2 1000 true) empty_heap = Ok (this, h) ∧
    rollingPercentilesEnabled this = true ∧
    run this [Increment Property.successes (Some 30); Rotate;
              Increment Property.failures (Some 10);
              Increment Property.timeouts (Some 20)] h = Ok (tt, h') ∧
    stats this h' = Ok (s, h') ∧
    percentiles (totals s) !! of_Z 0 = Some lo ∧
    percentiles (totals s) !! of_Z 1 = Some hi ∧
    ∀ x, x ∈ [30; 10; 20] → lo ≤ x ≤ hi.
Proof.
  split; [simpl; lia|].
  eexists _, _.
  destruct (percentile_zero_and_one_are_min_and_max (Options.make 2 1000 true)
              empty_heap _ _
              [Increment Property.successes (Some 30); Rotate;
               Increment Property.failures (Some 10);
               Increment Property.timeouts (Some 20)]
              ltac:(simpl; lia) eq_refl eq_refl ltac:(by vm_compute)
              ltac:(by vm_compute))
    as (h' & s & lo & hi & Hr & Hs & Hlo & Hhi & _ & _ & Hle).
  exists h', s, lo, hi.
  split_and!; [reflexivity|reflexivity|exact Hr|exact Hs|exact Hlo|exact Hhi|exact Hle].
Defined.

(** X8 for the options [{rollingCountBuckets: 0}]. *)
Lemma zero_bucket_window_witness :
  Options.rollingCountBuckets (Options.make 0 1000 true) = 0 ∧
  ∃ this h h' r,
    constructor (Options.make 0 1000 true) empty_heap = Ok (this, h) ∧
    increment this Property.fires None h = Throw TypeError ∧
    run this [Rotate; Increment Property.fires None; Rotate] h = Ok (tt, h') ∧
    arrays h' !! WINDOW this = Some [Some r].
Proof.
  split; [reflexivity|].
  destruct (zero_bucket_window (Options.make 0 1000 true) empty_heap eq_refl)
    as (this & h & Hc & _ & Hinc & _ & _ & _ & Hrun).
  destruct (Hrun [Increment Property.fires None; Rotate]) as (h' & r & Hr & Hw).
  exists this, h, h', r. split_and!; [exact Hc|apply Hinc|exact Hr|exact Hw].
Defined.

(** X9 for a window of two buckets and one of three. *)
Lemma status_objects_are_independent_witness :
  0 < Options.rollingCountBuckets (Options.make 2 1000 true) ∧
  0 < Options.rollingCountBuckets (Options.make 3 900 false) ∧
  ∃ a h1 b h2 h3 sa sb ha,
    constructor (Options.make 2 1000 true) empty_heap = Ok (a, h1) ∧
    constructor (Options.make 3 900 false) h1 = Ok (b, h2) ∧
    run2 a b [inl (Increment Property.successes (Some 4)); inr Rotate;
              inr (Increment Property.fires None); inl Rotate; inr Open] h2
      = Ok (tt, h3) ∧
    stats a h3 = Ok (sa, h3) ∧ stats b h3 = Ok (sb, h3) ∧
    run a [Increment Property.successes (Some 4); Rotate] h1 = Ok (tt, ha) ∧
    stats a ha = Ok (sa, ha).
Proof.
  split; [simpl; lia|]. split; [simpl; lia|].
  eexists _, _, _, _.
  destruct (status_objects_are_independent (Options.make 2 1000 true)
              (Options.make 3 900 false) empty_heap _ _ _ _
              ltac:(simpl; lia) ltac:(simpl; lia) eq_refl eq_refl
              [inl (Increment Property.successes (Some 4)); inr Rotate;
               inr (Increment Property.fires None); inl Rotate; inr Open])
    as (h3 & sa & sb & Hr & Hsa & Hsb & (ha & Hra & Hsa') & _).
  exists h3, sa, sb, ha.
  split_and!; [reflexivity|reflexivity|exact Hr|exact Hsa|exact Hsb|exact Hra|exact Hsa'].
Defined.

(** X10 for a window whose first slot is empty. *)
Lemma stats_skips_undefined_slots_witness :
  ∃ s,
    stats (mkStatus 0 2 1000 percentile_table true (of_Z 500))
          (mkHeap [[None; Some 0%nat]] [empty_bucket])
    = Ok (s, mkHeap [[None; Some 0%nat]] [empty_bucket]) ∧
    stats (mkStatus 0 2 1000 percentile_table true (of_Z 500))
          (mkHeap [[Some 0%nat]] [empty_bucket])
    = Ok (s, mkHeap [[Some 0%nat]] [empty_bucket]).
Proof.
  destruct (stats_skips_undefined_slots
              (mkStatus 0 2 1000 percentile_table true (of_Z 500))
              (mkHeap [[None; Some 0%nat]] [empty_bucket])
              [None; Some 0%nat] eq_refl)
    as (s & h' & Hs & -> & Hs').
  - intros r [[=]|[[= ->]|[]%elem_of_nil]%elem_of_cons]%elem_of_cons. simpl. lia.
  - exists s. split; [exact Hs|exact Hs'].
Defined.

(** X11 after [open]: the current bucket has the flag, [stats] has not. *)
Lemma stats_never_reports_the_flag_witness :
  0 < Options.rollingCountBuckets (Options.make 2 1000 true) ∧
  ∃ this h h' s,
    constructor (Options.make 2 1000 true) empty_heap = Ok (this, h) ∧
    run this [Increment Property.fires None; Open] h = Ok (tt, h') ∧
    stats this h' = Ok (s, h') ∧
    isCircuitBreakerOpen (totals s) = None.
Proof.
  split; [simpl; lia|].
  eexists _, _.
  destruct (stats_never_reports_the_flag (Options.make 2 1000 true) empty_heap
              _ _ ltac:(simpl; lia) eq_refl [Increment Property.fires None; Open])
    as (h' & s & Hr & Hs & Hflag).
  exists h', s. split_and!; [reflexivity|exact Hr|exact Hs|exact Hflag].
Defined.
